(** * ARX language support: descriptor registry and editor queries

    A shallow embedding of [src/extension.ts]: the loader of [c_map/*.map]
    descriptor files into the library registry, the watcher that reloads
    it, and the three providers (library-name completion, member
    completion, signature help) that read it.  Strings are sequences of UTF-16 code units, the registry is
    an insertion-ordered map, regular expressions are run by a small
    backtracking matcher with the priorities of the host language. *)

From Stdlib Require Import String Ascii.
From Stdlib Require Import List NArith ZArith Bool Lia.
Import ListNotations.

(** ** Strings of the host language *)

Module Js.

(** A code unit; a string is the list of its code units. *)
Definition char := N.
Definition jsstring := list char.

Definition ch (a : ascii) : char := N_of_ascii a.

(** String literals of the source, written as Rocq strings. *)
Definition lit (s : string) : jsstring := map ch (list_ascii_of_string s).

Fixpoint str_eqb (a b : jsstring) : bool :=
  match a, b with
  | [], [] => true
  | x :: a', y :: b' => N.eqb x y && str_eqb a' b'
  | _, _ => false
  end.

(** [s.startsWith(p)] *)
Fixpoint startsWith (s p : jsstring) {struct p} : bool :=
  match p, s with
  | [], _ => true
  | x :: p', y :: s' => N.eqb x y && startsWith s' p'
  | _ :: _, [] => false
  end.

(** [s.endsWith(suf)] *)
Definition endsWith (s suf : jsstring) : bool :=
  (length suf <=? length s) && str_eqb (skipn (length s - length suf) s) suf.

(** [s.slice(0, n)] for a non-negative [n] *)
Definition slice0 (s : jsstring) (n : nat) : jsstring := firstn n s.

(** [s.indexOf(sep)], relative to the start of [s] *)
Fixpoint indexOf (s sep : jsstring) : option nat :=
  if startsWith s sep then Some 0
  else match s with
       | [] => None
       | _ :: s' => option_map S (indexOf s' sep)
       end.

(** [s.split(sep)] for a non-empty string separator: the loop of the
    language definition, which cuts at successive occurrences found by
    [indexOf], each search resuming after the previous occurrence.  The
    loop runs at most once per code unit, hence the bound. *)
Fixpoint split_loop (fuel : nat) (s sep : jsstring) : list jsstring :=
  match fuel with
  | 0 => [s]
  | S f =>
    match indexOf s sep with
    | None => [s]
    | Some j => firstn j s :: split_loop f (skipn (j + length sep) s) sep
    end
  end.

Definition split (s sep : jsstring) : list jsstring :=
  split_loop (S (length s)) s sep.

(** [parts.join(sep)] *)
Fixpoint join (parts : list jsstring) (sep : jsstring) : jsstring :=
  match parts with
  | [] => []
  | [p] => p
  | p :: rest => p ++ sep ++ join rest sep
  end.

(** The class [\w] of the regular expressions: [A-Za-z0-9_]. *)
Definition isWord (c : char) : bool :=
  (((48 <=? c) && (c <=? 57)) || ((65 <=? c) && (c <=? 90))
   || (c =? 95) || ((97 <=? c) && (c <=? 122)))%N.

(** The class [\s]: white space and line terminators, which is also what
    [trim] removes. *)
Definition isSpace (c : char) : bool :=
  (((9 <=? c) && (c <=? 13)) || (c =? 32) || (c =? 160) || (c =? 5760)
   || ((8192 <=? c) && (c <=? 8202)) || (c =? 8232) || (c =? 8233)
   || (c =? 8239) || (c =? 8287) || (c =? 12288) || (c =? 65279))%N.

Fixpoint dropWhile (p : char -> bool) (s : jsstring) : jsstring :=
  match s with
  | [] => []
  | c :: s' => if p c then dropWhile p s' else s
  end.

(** [s.trim()] *)
Definition trim (s : jsstring) : jsstring :=
  rev (dropWhile isSpace (rev (dropWhile isSpace s))).

(** A string is falsy exactly when it is empty. *)
Definition truthy (s : jsstring) : bool :=
  match s with [] => false | _ => true end.

End Js.

Import Js.

(** ** Regular expressions *)

Module Regex.

Inductive re : Type :=
| Eps
| Class (p : char -> bool)
| Bol
| Eol
| Seq (a b : re)
| Star (a : re)
| Group (n : nat) (a : re).

Definition Chr (a : ascii) : re := Class (N.eqb (ch a)).
Definition Plus (a : re) : re := Seq a (Star a).

Declare Scope re_scope.
Delimit Scope re_scope with re.
Notation "a ;; b" := (Seq a b) (at level 61, right associativity) : re_scope.

Fixpoint Str (s : list ascii) : re :=
  match s with
  | [] => Eps
  | a :: s' => Seq (Chr a) (Str s')
  end.

Definition captures := list (nat * jsstring).

(** End of a match: the offset reached, the input left, the groups. *)
Definition result : Type := nat * jsstring * captures.

(** A continuation receives the offset, the remaining input and the
    groups captured so far. *)
Definition K : Type := nat -> jsstring -> captures -> option result.

Definition accept : K := fun pos s cs => Some (pos, s, cs).

(** Greedy iteration: one more round of [body] is tried first, and the
    rest of the pattern only when every continuation of that round
    fails.  A round that consumes nothing is rejected. *)
Fixpoint star_loop (body : K -> K) (k : K) (fuel : nat) : K :=
  fun pos s cs =>
    match fuel with
    | 0 => k pos s cs
    | S n =>
      match body (fun pos' s' cs' =>
                    if length s' <? length s
                    then star_loop body k n pos' s' cs'
                    else None) pos s cs with
      | Some r => Some r
      | None => k pos s cs
      end
    end.

(** The backtracking matcher, in continuation-passing style. *)
Fixpoint m (r : re) (k : K) : K :=
  fun pos s cs =>
    match r with
    | Eps => k pos s cs
    | Class p =>
      match s with
      | c :: s' => if p c then k (S pos) s' cs else None
      | [] => None
      end
    | Bol => if Nat.eqb pos 0 then k pos s cs else None
    | Eol => match s with [] => k pos s cs | _ :: _ => None end
    | Seq a b => m a (m b k) pos s cs
    | Star a => star_loop (m a) k (length s) pos s cs
    | Group n a =>
      m a (fun pos' s' cs' => k pos' s' ((n, firstn (pos' - pos) s) :: cs'))
        pos s cs
    end.

(** [re.exec(s)] without the global flag: the first start offset, from
    the left, at which the pattern matches.  Group 0 is the whole match. *)
Fixpoint search (r : re) (pos : nat) (s : jsstring) : option result :=
  match m (Group 0 r) accept pos s [] with
  | Some x => Some x
  | None =>
    match s with
    | [] => None
    | _ :: s' => search r (S pos) s'
    end
  end.

Definition exec (r : re) (s : jsstring) : option result := search r 0 s.

Definition test (r : re) (s : jsstring) : bool :=
  match exec r s with Some _ => true | None => false end.

Fixpoint lookup (n : nat) (cs : captures) : option jsstring :=
  match cs with
  | [] => None
  | (i, v) :: cs' => if Nat.eqb i n then Some v else lookup n cs'
  end.

(** Element [n] of the match array; a group that took no part reads as the
    empty string here. *)
Definition group (n : nat) (res : result) : jsstring :=
  match lookup n (snd res) with Some v => v | None => [] end.

(** [s.match(re)] with the global flag: all matches from left to right,
    each search resuming where the previous match ended (one code unit
    further after an empty match). *)
Fixpoint matchAll_loop (fuel : nat) (r : re) (pos : nat) (s : jsstring)
  : list jsstring :=
  match fuel with
  | 0 => []
  | S f =>
    match search r pos s with
    | None => []
    | Some ((pos', s'), cs) =>
      let whole := group 0 ((pos', s'), cs) in
      whole ::
        match whole with
        | [] => match s' with
                | [] => []
                | _ :: s'' => matchAll_loop f r (S pos') s''
                end
        | _ :: _ => matchAll_loop f r pos' s'
        end
    end
  end.

Definition matchAll (r : re) (s : jsstring) : list jsstring :=
  matchAll_loop (S (length s)) r 0 s.

End Regex.

Import Regex.
Open Scope re_scope.

Definition W : re := Class isWord.
Definition Sp : re := Class isSpace.

(** ** The registry: an insertion-ordered map keyed by strings *)

Module JsMap.
Section WithValues.
Variable V : Type.

Definition t : Type := list (jsstring * V).

Definition clear (_ : t) : t := [].

Fixpoint get (k : jsstring) (mp : t) : option V :=
  match mp with
  | [] => None
  | (k', v) :: mp' => if str_eqb k' k then Some v else get k mp'
  end.

(** [set] keeps the position of a key that is already there and appends
    a new key at the end. *)
Fixpoint set (k : jsstring) (v : V) (mp : t) : t :=
  match mp with
  | [] => [(k, v)]
  | (k', v') :: mp' =>
    if str_eqb k' k then (k', v) :: mp' else (k', v') :: set k v mp'
  end.

Definition keys (mp : t) : list jsstring := map fst mp.
End WithValues.

Arguments clear {V} _.
Arguments get {V} k mp.
Arguments set {V} k v mp.
Arguments keys {V} mp.
End JsMap.

(** ** Data model *)

Record LibFunction : Type := {
  name : jsstring;
  argType : jsstring;   (* comma-separated types *)
  alias : jsstring;
  returnType : jsstring
}.

Definition Registry : Type := JsMap.t (list LibFunction).

(** What the extension asks of its host: the workspace folders of the
    editor, the path library and the synchronous file-system calls.  A call
    that throws returns [None]. *)
Record Host : Type := {
  workspaceFolders : option (list jsstring);
  path_join : jsstring -> jsstring -> jsstring;
  existsSync : jsstring -> bool;
  readdirSync : jsstring -> option (list jsstring);
  readFileSync : jsstring -> option jsstring
}.

(** [path.basename(file, ext)] on a directory entry, which holds no path
    separator: the extension is cut off when the name ends with it. *)
Definition basename (file ext : jsstring) : jsstring :=
  if endsWith file ext then firstn (length file - length ext) file else file.

Definition newline : jsstring := [10%N].

(** ** Loading the descriptor files *)

Definition getMapDir (h : Host) : option jsstring :=
  match workspaceFolders h with
  | Some (folder :: _) => Some (path_join h folder (lit "c_map"))
  | _ => None
  end.

(** The pattern of a declaration line, anchored at the start of the line:
    group 1 is a word, a colon, a word and any number of comma-word
    repetitions; then an equals sign, group 2 (a word), a greater-than
    sign and group 3 (a word), with optional white space around both
    signs.  Nothing anchors the end of the line. *)
Definition re_decl : re :=
  Bol ;; Group 1 (Plus W ;; Chr ":" ;; Plus W ;; Star (Chr "," ;; Plus W)) ;;
  Star Sp ;; Chr "=" ;; Star Sp ;; Group 2 (Plus W) ;;
  Star Sp ;; Chr ">" ;; Star Sp ;; Group 3 (Plus W).

(** One line of the function section: the record it declares, if any. *)
Definition parseLine (line : jsstring) : option LibFunction :=
  match exec re_decl line with
  | None => None
  | Some mt =>
    let argString := group 1 mt in
    let parts := split argString (lit ":") in
    Some {| name := hd [] parts;
            argType := join (tl parts) (lit ":");
            alias := group 2 mt;
            returnType := group 3 mt |}
  end.

(** The inner loop: every matching line pushes its record onto
    [functions]. *)
Fixpoint scanLines (lines : list jsstring) (functions : list LibFunction)
  : list LibFunction :=
  match lines with
  | [] => functions
  | line :: rest =>
    match parseLine line with
    | Some fn => scanLines rest (functions ++ [fn])
    | None => scanLines rest functions
    end
  end.

(** [content.split("[functions]")[1]]; [None] is [undefined]. *)
Definition funcSectionOf (content : jsstring) : option jsstring :=
  nth_error (split content (lit "[functions]")) 1.

Definition parseSection (funcSection : jsstring) : list LibFunction :=
  scanLines (split funcSection newline) [].

(** How a call ends: it returns, or an exception leaves it. *)
Inductive outcome : Type := Returned | Threw.

(** The loop over the directory entries, on the registry being rebuilt. *)
Fixpoint loadLoop (h : Host) (mapDir : jsstring) (files : list jsstring)
  (libFunctions : Registry) : Registry * outcome :=
  match files with
  | [] => (libFunctions, Returned)
  | file :: rest =>
    if negb (endsWith file (lit ".map")) then loadLoop h mapDir rest libFunctions
    else
      let libName := basename file (lit ".map") in
      match readFileSync h (path_join h mapDir file) with
      | None => (libFunctions, Threw)
      | Some content =>
        match funcSectionOf content with
        | None => loadLoop h mapDir rest libFunctions
        | Some funcSection =>
          if negb (truthy funcSection) then loadLoop h mapDir rest libFunctions
          else
            loadLoop h mapDir rest
              (JsMap.set libName (parseSection funcSection) libFunctions)
        end
      end
  end.

(** [loadMapFiles()], from the registry it finds to the registry it leaves.
    The closing log line reads the registry and changes nothing. *)
Definition loadMapFiles (h : Host) (libFunctions : Registry)
  : Registry * outcome :=
  let mapDir := getMapDir h in
  let libFunctions := JsMap.clear libFunctions in
  match mapDir with
  | None => (libFunctions, Returned)
  | Some dir =>
    if negb (truthy dir) || negb (existsSync h dir) then (libFunctions, Returned)
    else
      match readdirSync h dir with
      | None => (libFunctions, Threw)
      | Some files => loadLoop h dir files libFunctions
      end
  end.

(** ** The providers *)

Inductive CompletionItemKind : Type := KindModule | KindFunction.

Record CompletionItem : Type := {
  label : jsstring;
  kind : CompletionItemKind;
  detail : jsstring;
  insertText : option jsstring;
  documentation : option jsstring
}.

(** The pattern [^\s*using\s+]. *)
Definition re_using : re :=
  Bol ;; Star Sp ;; Str (list_ascii_of_string "using") ;; Plus Sp.

Definition libraryItem (libName : jsstring) : CompletionItem :=
  {| label := libName; kind := KindModule; detail := lit "ARX Library";
     insertText := None; documentation := None |}.

(** Library names after [using].  [lineText] is the whole line under the
    cursor; the position serves to pick that line and nothing else. *)
Definition provideLibraryCompletionItems (libFunctions : Registry)
  (lineText : jsstring) (character : nat) : list CompletionItem :=
  if test re_using lineText
  then map libraryItem (JsMap.keys libFunctions)
  else [].

(** The pattern of a member access at the end of the line: group 1 is a
    word, then a dot, then group 2, a possibly empty run of word
    characters that reaches the end of the line. *)
Definition re_member : re :=
  Group 1 (Plus W) ;; Chr "." ;; Group 2 (Star W) ;; Eol.

Definition memberItem (libName : jsstring) (fn : LibFunction)
  : CompletionItem :=
  {| label := name fn; kind := KindFunction;
     detail := libName ++ lit " library";
     insertText := Some (name fn);
     documentation :=
       Some (name fn ++ lit "(" ++ argType fn ++ lit ") -> " ++ returnType fn) |}.

(** The match of the member pattern on the line, read as [libName] and
    [prefix]. *)
Definition memberAccess (lineText : jsstring) : option (jsstring * jsstring) :=
  match exec re_member lineText with
  | None => None
  | Some libMatch => Some (group 1 libMatch, group 2 libMatch)
  end.

(** Functions of a library after [libName.prefix]. *)
Definition provideMemberCompletionItems (libFunctions : Registry)
  (lineText : jsstring) (character : nat) : list CompletionItem :=
  match memberAccess lineText with
  | None => []
  | Some (libName, prefix) =>
    match JsMap.get libName libFunctions with
    | None => []
    | Some funcs =>
      map (memberItem libName)
          (filter (fun fn => startsWith (name fn) prefix) funcs)
    end
  end.

Record SignatureInformation : Type := {
  sig_label : jsstring;
  sig_documentation : jsstring;
  parameters : list jsstring
}.

Record SignatureHelp : Type := {
  signatures : list SignatureInformation;
  activeSignature : Z;
  activeParameter : Z
}.

(** The pattern of a call: group 1 (a word), a dot, group 2 (a word) and
    an opening parenthesis. *)
Definition re_call : re :=
  Group 1 (Plus W) ;; Chr "." ;; Group 2 (Plus W) ;; Chr "(".

(** The pattern of one comma, with the global flag. *)
Definition re_comma : re := Chr ",".

(** The match of the call pattern in the text before the cursor, read as
    [libName] and [funcName]. *)
Definition callSite (textUntilPos : jsstring) : option (jsstring * jsstring) :=
  match exec re_call textUntilPos with
  | None => None
  | Some mt => Some (group 1 mt, group 2 mt)
  end.

(** [args]: the argument types of a record, as signature help splits
    them. *)
Definition argsOf (fn : LibFunction) : list jsstring :=
  if truthy (argType fn)
  then map trim (split (argType fn) (lit ","))
  else [].

(** Signature help; [None] is the [null] answer. *)
Definition provideSignatureHelp (libFunctions : Registry)
  (line : jsstring) (character : nat) : option SignatureHelp :=
  let textUntilPos := slice0 line character in
  match callSite textUntilPos with
  | None => None
  | Some (libName, funcName) =>
    match JsMap.get libName libFunctions with
    | None => None
    | Some funcs =>
      match find (fun f => str_eqb (name f) funcName) funcs with
      | None => None
      | Some fn =>
        let args := argsOf fn in
        let sig :=
          {| sig_label := name fn ++ lit "(" ++ join args (lit ", ")
                          ++ lit ") -> " ++ returnType fn;
             sig_documentation := lit "From library: " ++ libName;
             parameters := args |} in
        let commaCount := length (matchAll re_comma textUntilPos) in
        Some {| signatures := [sig];
                activeSignature := 0;
                activeParameter :=
                  Z.min (Z.of_nat commaCount) (Z.of_nat (length args) - 1) |}
      end
    end
  end.

(** ** Vocabulary of the statements *)

Definition mapExt : jsstring := lit ".map".
Definition marker : jsstring := lit "[functions]".

(** [file] is a descriptor of [dir] whose function section is not empty:
    the loop installs [funcs] under [lib] when it reaches it. *)
Definition registers (h : Host) (dir file lib : jsstring)
  (funcs : list LibFunction) : Prop :=
  endsWith file mapExt = true /\ lib = basename file mapExt /\
  exists content funcSection,
    readFileSync h (path_join h dir file) = Some content /\
    funcSectionOf content = Some funcSection /\
    funcSection <> [] /\ funcs = parseSection funcSection.

(** The descriptor directory of the host is [dir], it exists and lists
    [files]. *)
Definition descriptorDir (h : Host) (dir : jsstring) (files : list jsstring)
  : Prop :=
  getMapDir h = Some dir /\ dir <> [] /\ existsSync h dir = true /\
  readdirSync h dir = Some files.

(** No project root is open, or its descriptor directory is missing. *)
Definition dirAbsent (h : Host) : Prop :=
  match getMapDir h with
  | None => True
  | Some dir => existsSync h dir = false
  end.

(** Occurrences of a separator in a text, by offset. *)
Definition occursAt (s sep : jsstring) (i : nat) : Prop :=
  startsWith (skipn i s) sep = true.

Definition firstAt (s sep : jsstring) (i : nat) : Prop :=
  occursAt s sep i /\ forall k, k < i -> ~ occursAt s sep k.

Definition absent (s sep : jsstring) : Prop := forall i, ~ occursAt s sep i.

(** Nothing follows the first marker of the text, or there is no marker. *)
Definition noTextAfterMarker (content : jsstring) : Prop :=
  absent content marker \/
  exists i, firstAt content marker i /\ skipn (i + length marker) content = [].

(** The records of a line, none or one. *)
Definition declOf (line : jsstring) : list LibFunction :=
  match parseLine line with
  | Some fn => [fn]
  | None => []
  end.

Definition all (p : char -> bool) (s : jsstring) : Prop :=
  Forall (fun c => p c = true) s.

Definition identifier (w : jsstring) : Prop := w <> [] /\ all isWord w.

Definition nonWord (c : char) : bool := negb (isWord c).

Definition countChar (c : char) (s : jsstring) : nat :=
  length (filter (N.eqb c) s).

(** At offset [i] the text reads identifier, dot, identifier, opening
    parenthesis. *)
Definition callShapeAt (text : jsstring) (i : nat) : Prop :=
  exists lib fn post : jsstring,
    skipn i text = lib ++ lit "." ++ fn ++ lit "(" ++ post /\
    identifier lib /\ identifier fn.

(** The line starts with optional white space, the keyword and at least
    one white space; anything may follow. *)
Definition usingShape (line : jsstring) : Prop :=
  exists ws1 ws2 rest : jsstring,
    line = ws1 ++ lit "using" ++ ws2 ++ rest /\
    all isSpace ws1 /\ all isSpace ws2 /\ ws2 <> [].

(** The text is optional white space, the keyword and at least one white
    space, and nothing else. *)
Definition usingOnly (text : jsstring) : Prop :=
  exists ws1 ws2 : jsstring,
    text = ws1 ++ lit "using" ++ ws2 /\
    all isSpace ws1 /\ all isSpace ws2 /\ ws2 <> [].

(** [pre] is empty or ends outside an identifier. *)
Definition wordBoundary (pre : jsstring) : Prop :=
  forall p c, pre = p ++ [c] -> isWord c = false.

(** The commas between the parenthesis of the matched call and the end of
    the text, and an index clamped to the argument positions: the active
    parameter as the specification words it. *)
Definition commasAfterParen (text : jsstring) : nat :=
  match exec re_call text with
  | Some (_, rest, _) => countChar (ch ",") rest
  | None => 0
  end.

Definition clampIndex (count nargs : nat) : Z :=
  Z.max 0 (Z.min (Z.of_nat count) (Z.of_nat nargs - 1)).

(** A record as the declaration pattern admits it: a name that is an
    identifier, and at least one argument type. *)
Definition declared (fn : LibFunction) : Prop :=
  identifier (name fn) /\ argType fn <> [].

Definition registryDeclared (reg : Registry) : Prop :=
  forall lib funcs, JsMap.get lib reg = Some funcs -> Forall declared funcs.

(** ** Vocabulary of the matcher *)

Fixpoint takeWhile (p : char -> bool) (s : jsstring) : jsstring :=
  match s with
  | [] => []
  | c :: s' => if p c then c :: takeWhile p s' else []
  end.

(** The greedy iteration of a character class, by recursion on the
    input: the longest run first, then shorter ones. *)
Fixpoint greedy (p : char -> bool) (k : K) (pos : nat) (s : jsstring)
  (cs : captures) : option result :=
  match s with
  | c :: s' =>
    if p c
    then match greedy p k (S pos) s' cs with
         | Some r => Some r
         | None => k pos s cs
         end
    else k pos s cs
  | [] => k pos s cs
  end.

(** The continuation fails whenever the next code unit is in the class. *)
Definition failsOn (p : char -> bool) (k : K) : Prop :=
  forall pos c s cs, p c = true -> k pos (c :: s) cs = None.

(** The match of a pattern that starts at the current offset. *)
Definition anchored (r : re) (pos : nat) (s : jsstring) : option result :=
  m (Group 0 r) accept pos s [].

Definition usingWord : list ascii := list_ascii_of_string "using".

(** The strings a pattern can consume; the two anchors consume nothing. *)
Inductive lang : re -> jsstring -> Prop :=
| lang_eps : lang Eps []
| lang_class p c : p c = true -> lang (Class p) [c]
| lang_bol : lang Bol []
| lang_eol : lang Eol []
| lang_seq a b x y : lang a x -> lang b y -> lang (Seq a b) (x ++ y)
| lang_star_nil a : lang (Star a) []
| lang_star_more a x y : lang a x -> lang (Star a) y -> lang (Star a) (x ++ y)
| lang_group n a x : lang a x -> lang (Group n a) x.

Fixpoint groupsOf (r : re) : list nat :=
  match r with
  | Eps | Class _ | Bol | Eol => []
  | Seq a b => groupsOf a ++ groupsOf b
  | Star a => groupsOf a
  | Group n a => n :: groupsOf a
  end.

(** What a successful run of [m r k] owes to [r]: it consumed [x], a
    string of the pattern, pushed the groups [new] of the pattern, and
    went on with [k]. *)
Definition runs (r : re) (k : K) (pos : nat) (s : jsstring) (cs : captures)
  (res : result) : Prop :=
  exists (x s' : jsstring) (new : captures),
    s = x ++ s' /\ lang r x /\
    (forall n v, In (n, v) new -> In n (groupsOf r)) /\
    k (pos + length x) s' (new ++ cs) = Some res.

(** The two halves of the declaration pattern: what group 1 holds, and
    what follows it. *)
Definition declHead : re :=
  Plus W ;; Chr ":" ;; Plus W ;; Star (Chr "," ;; Plus W).

Definition declTail : re :=
  Star Sp ;; Chr "=" ;; Star Sp ;; Group 2 (Plus W) ;;
  Star Sp ;; Chr ">" ;; Star Sp ;; Group 3 (Plus W).

(** ** Sample projects *)

Definition projDir : jsstring := lit "/proj/c_map".

Definition mathlibText : jsstring :=
  lit "[functions]" ++ newline
  ++ lit "add:int,int = c_add > int" ++ newline
  ++ lit "cos:float = c_cos > float" ++ newline
  ++ lit "cot:float = c_cot > float" ++ newline.

Definition strlibText : jsstring :=
  lit "[functions]" ++ newline
  ++ lit "concat:str,str = strconcat > str" ++ newline.

Definition concatRecord : LibFunction :=
  {| name := lit "concat"; argType := lit "str,str";
     alias := lit "strconcat"; returnType := lit "str" |}.

(** A project with one descriptor. *)
Definition sampleHost : Host :=
  {| workspaceFolders := Some [lit "/proj"];
     path_join := fun a b => a ++ lit "/" ++ b;
     existsSync := fun p => str_eqb p projDir;
     readdirSync := fun p =>
       if str_eqb p projDir then Some [lit "mathlib.map"] else None;
     readFileSync := fun p =>
       if str_eqb p (lit "/proj/c_map/mathlib.map") then Some mathlibText
       else None |}.

Definition sampleRegistry : Registry := fst (loadMapFiles sampleHost []).

(** A project whose second descriptor cannot be read. *)
Definition brokenHost : Host :=
  {| workspaceFolders := Some [lit "/proj"];
     path_join := fun a b => a ++ lit "/" ++ b;
     existsSync := fun p => str_eqb p projDir;
     readdirSync := fun p =>
       if str_eqb p projDir
       then Some [lit "mathlib.map"; lit "bad.map"; lit "strlib.map"]
       else None;
     readFileSync := fun p =>
       if str_eqb p (lit "/proj/c_map/mathlib.map") then Some mathlibText
       else if str_eqb p (lit "/proj/c_map/strlib.map") then Some strlibText
       else None |}.

(** A project without a descriptor directory. *)
Definition noDirHost : Host :=
  {| workspaceFolders := Some [lit "/proj"];
     path_join := fun a b => a ++ lit "/" ++ b;
     existsSync := fun _ => false;
     readdirSync := fun _ => None;
     readFileSync := fun _ => None |}.

(** A project whose only descriptor has no function section. *)
Definition notesHost : Host :=
  {| workspaceFolders := Some [lit "/proj"];
     path_join := fun a b => a ++ lit "/" ++ b;
     existsSync := fun p => str_eqb p projDir;
     readdirSync := fun p =>
       if str_eqb p projDir then Some [lit "notes.map"] else None;
     readFileSync := fun p =>
       if str_eqb p (lit "/proj/c_map/notes.map")
       then Some (lit "functions to be declared later")
       else None |}.

(** A descriptor in which the marker occurs twice. *)
Definition twoMarkerText : jsstring :=
  lit "[functions]" ++ newline
  ++ lit "sin:float = c_sin > float" ++ newline
  ++ lit "[functions]" ++ newline
  ++ lit "tan:float = c_tan > float" ++ newline.

(** Two libraries with one function each. *)
Definition nestedRegistry : Registry :=
  [(lit "a", [{| name := lit "f"; argType := lit "int";
                 alias := lit "c_f"; returnType := lit "int" |}]);
   (lit "b", [{| name := lit "g"; argType := lit "int";
                 alias := lit "c_g"; returnType := lit "int" |}])].

(** ** Vocabulary of the further properties *)

(** The strings a pattern can consume, with the groups it pushes while it
    does, latest first. *)
Inductive langc : re -> jsstring -> captures -> Prop :=
| langc_eps : langc Eps [] []
| langc_class p c : p c = true -> langc (Class p) [c] []
| langc_bol : langc Bol [] []
| langc_eol : langc Eol [] []
| langc_seq a b x y ca cb :
    langc a x ca -> langc b y cb -> langc (Seq a b) (x ++ y) (cb ++ ca)
| langc_star_nil a : langc (Star a) [] []
| langc_star_more a x y ca cb :
    langc a x ca -> langc (Star a) y cb -> langc (Star a) (x ++ y) (cb ++ ca)
| langc_group n a x ca : langc a x ca -> langc (Group n a) x ((n, x) :: ca).

(** The text is empty or starts outside an identifier. *)
Definition wordStop (rest : jsstring) : Prop :=
  forall c s, rest = c :: s -> isWord c = false.

(** The types of a declaration after the first, each behind its comma. *)
Definition moreTypes (ts : list jsstring) : jsstring :=
  flat_map (fun t => lit "," ++ t) ts.

(** A line that declares the record [fn]: name, colon, types separated by
    commas, equals sign, alias, greater-than sign, return type, with
    optional white space around the two signs, and then anything that
    does not continue the return type. *)
Definition declShape (line : jsstring) (fn : LibFunction) : Prop :=
  exists (ts : list jsstring) (ws1 ws2 ws3 ws4 rest : jsstring),
    line = name fn ++ lit ":" ++ argType fn ++ ws1 ++ lit "=" ++ ws2
           ++ alias fn ++ ws3 ++ lit ">" ++ ws4 ++ returnType fn ++ rest /\
    identifier (name fn) /\
    ts <> [] /\ Forall identifier ts /\ argType fn = join ts (lit ",") /\
    identifier (alias fn) /\ identifier (returnType fn) /\
    all isSpace ws1 /\ all isSpace ws2 /\ all isSpace ws3 /\ all isSpace ws4 /\
    wordStop rest.

(** A code unit that may go on a list of types: a word character or a
    comma. *)
Definition inTypes (c : char) : bool := isWord c || N.eqb (ch ",") c.

(** A record whose name, alias and return type are identifiers and whose
    argument types are one or more identifiers separated by commas. *)
Definition wellDeclared (fn : LibFunction) : Prop :=
  identifier (name fn) /\ identifier (alias fn) /\
  identifier (returnType fn) /\
  exists ts, ts <> [] /\ Forall identifier ts /\
             argType fn = join ts (lit ",").

Definition addRecord : LibFunction :=
  {| name := lit "add"; argType := lit "int,int";
     alias := lit "c_add"; returnType := lit "int" |}.

(** The loop installs a library when it reaches [file]: a readable [.map]
    entry with a non-empty function section. *)
Definition installsb (h : Host) (dir file : jsstring) : bool :=
  endsWith file mapExt &&
  match readFileSync h (path_join h dir file) with
  | Some content =>
    match funcSectionOf content with
    | Some funcSection => truthy funcSection
    | None => false
    end
  | None => false
  end.

(** A project with two descriptors and a file that is none. *)
Definition twoLibHost : Host :=
  {| workspaceFolders := Some [lit "/proj"];
     path_join := fun a b => a ++ lit "/" ++ b;
     existsSync := fun p => str_eqb p projDir;
     readdirSync := fun p =>
       if str_eqb p projDir
       then Some [lit "strlib.map"; lit "README.md"; lit "mathlib.map"]
       else None;
     readFileSync := fun p =>
       if str_eqb p (lit "/proj/c_map/mathlib.map") then Some mathlibText
       else if str_eqb p (lit "/proj/c_map/strlib.map") then Some strlibText
       else if str_eqb p (lit "/proj/c_map/README.md")
            then Some (lit "[functions]" ++ newline
                       ++ lit "hidden:int = c_hidden > int")
       else None |}.

(** ** Watching the descriptor directory, activation *)

(** [watchMapFiles()]: the directory it hands to [fs.watch], if any. *)
Definition watchMapFiles (h : Host) : option jsstring :=
  match getMapDir h with
  | None => None
  | Some dir =>
    if negb (truthy dir) || negb (existsSync h dir) then None else Some dir
  end.

(** The callback of the watcher, on the registry it finds; [filename] may
    be [null]. *)
Definition onWatchEvent (h : Host) (filename : option jsstring)
  (libFunctions : Registry) : Registry * outcome :=
  match filename with
  | Some f =>
    if truthy f && endsWith f (lit ".map")
    then loadMapFiles h libFunctions
    else (libFunctions, Returned)
  | None => (libFunctions, Returned)
  end.

(** The extension once [activate] is over: the registry, the directory
    under watch, and whether the providers were registered. *)
Record Extension : Type := {
  registry : Registry;
  watched : option jsstring;
  registered : bool
}.

(** [activate]: load, then watch, then register the providers.  An
    exception of the load leaves [activate] before the other two. *)
Definition activate (h : Host) : Extension * outcome :=
  match loadMapFiles h [] with
  | (reg, Threw) =>
    ({| registry := reg; watched := None; registered := false |}, Threw)
  | (reg, Returned) =>
    ({| registry := reg; watched := watchMapFiles h; registered := true |},
     Returned)
  end.

(** An event of the watcher: the host as it is when the callback runs, and
    the file name the event carries. *)
Definition event : Type := Host * option jsstring.

(** Events reach the callback only when a directory is under watch; what
    the callback throws does not stop the watcher. *)
Definition deliver (ext : Extension) (ev : event) : Extension :=
  match watched ext with
  | None => ext
  | Some _ =>
    {| registry := fst (onWatchEvent (fst ev) (snd ev) (registry ext));
       watched := watched ext;
       registered := registered ext |}
  end.

Definition run (ext : Extension) (evs : list event) : Extension :=
  fold_left deliver evs ext.

Definition isDescriptorEvent (filename : option jsstring) : bool :=
  match filename with
  | Some f => truthy f && endsWith f mapExt
  | None => false
  end.

(** The host of the last event that names a descriptor file. *)
Fixpoint lastDescriptorEvent (evs : list event) : option Host :=
  match evs with
  | [] => None
  | (h, filename) :: rest =>
    match lastDescriptorEvent rest with
    | Some h' => Some h'
    | None => if isDescriptorEvent filename then Some h else None
    end
  end.

(** A descriptor whose name is not an identifier. *)
Definition dashedHost : Host :=
  {| workspaceFolders := Some [lit "/proj"];
     path_join := fun a b => a ++ lit "/" ++ b;
     existsSync := fun p => str_eqb p projDir;
     readdirSync := fun p =>
       if str_eqb p projDir then Some [lit "my-lib.map"] else None;
     readFileSync := fun p =>
       if str_eqb p (lit "/proj/c_map/my-lib.map") then Some mathlibText
       else None |}.

(** The sample project with its directory listed the other way round. *)
Definition reversedHost : Host :=
  {| workspaceFolders := workspaceFolders twoLibHost;
     path_join := path_join twoLibHost;
     existsSync := existsSync twoLibHost;
     readdirSync := fun p => option_map (@rev jsstring) (readdirSync twoLibHost p);
     readFileSync := readFileSync twoLibHost |}.

(** ** Facts about strings *)

Section StringFacts.

Lemma str_eqb_eq (a b : jsstring) : str_eqb a b = true <-> a = b.
Proof.
  revert b; induction a as [|x a IH]; intros [|y b]; simpl;
    try (split; [discriminate | congruence]); try tauto.
  rewrite andb_true_iff, N.eqb_eq, IH.
  split; [intros [-> ->]; reflexivity | intros H; inversion H; auto].
Qed.

Lemma str_eqb_refl (a : jsstring) : str_eqb a a = true.
Proof. apply str_eqb_eq; reflexivity. Qed.

Lemma str_eqb_neq (a b : jsstring) : str_eqb a b = false <-> a <> b.
Proof.
  rewrite <- str_eqb_eq. destruct (str_eqb a b); split; congruence.
Qed.

Lemma startsWith_spec (s p : jsstring) :
  startsWith s p = true <-> exists rest, s = p ++ rest.
Proof.
  revert s; induction p as [|x p IH]; intros s; simpl.
  - split; [intros _; exists s; reflexivity | reflexivity].
  - destruct s as [|y s].
    + split; [discriminate | intros [rest H]; discriminate].
    + rewrite andb_true_iff, N.eqb_eq, IH. split.
      * intros [-> [rest ->]]. exists rest; reflexivity.
      * intros [rest H]. inversion H; subst. split; eauto.
Qed.

Lemma startsWith_app (p rest : jsstring) : startsWith (p ++ rest) p = true.
Proof. apply startsWith_spec; eauto. Qed.

Lemma endsWith_split (s suf : jsstring) :
  endsWith s suf = true -> s = firstn (length s - length suf) s ++ suf.
Proof.
  unfold endsWith. rewrite andb_true_iff, str_eqb_eq. intros [_ H].
  transitivity (firstn (length s - length suf) s
                ++ skipn (length s - length suf) s).
  - symmetry; apply firstn_skipn.
  - rewrite H; reflexivity.
Qed.

Lemma endsWith_app (a suf : jsstring) : endsWith (a ++ suf) suf = true.
Proof.
  unfold endsWith. rewrite length_app. apply andb_true_iff; split.
  - apply Nat.leb_le; lia.
  - replace (length a + length suf - length suf) with (length a) by lia.
    rewrite skipn_app, skipn_all, Nat.sub_diag. simpl. apply str_eqb_refl.
Qed.

(** A name that ends with the extension is its base name followed by the
    extension, so distinct descriptor files name distinct libraries. *)
Lemma basename_ext (file ext : jsstring) :
  endsWith file ext = true -> file = basename file ext ++ ext.
Proof.
  intros H. unfold basename. rewrite H. apply endsWith_split, H.
Qed.

Lemma basename_inj (f g ext : jsstring) :
  endsWith f ext = true -> endsWith g ext = true ->
  basename f ext = basename g ext -> f = g.
Proof.
  intros Hf Hg E.
  rewrite (basename_ext _ _ Hf), (basename_ext _ _ Hg), E. reflexivity.
Qed.

Lemma indexOf_bound (s sep : jsstring) (j : nat) :
  indexOf s sep = Some j -> j + length sep <= length s.
Proof.
  revert j; induction s as [|c s IH]; intros j; cbn [indexOf].
  - destruct (startsWith [] sep) eqn:E; [|discriminate].
    intros H; inversion H; subst.
    apply startsWith_spec in E. destruct E as [rest E].
    destruct sep; [simpl; lia | discriminate].
  - destruct (startsWith (c :: s) sep) eqn:E.
    + intros H; inversion H; subst.
      apply startsWith_spec in E. destruct E as [rest E].
      rewrite E, length_app. simpl; lia.
    + destruct (indexOf s sep) as [i|] eqn:Ei; simpl; [|discriminate].
      intros H; inversion H; subst.
      specialize (IH i eq_refl). lia.
Qed.

(** The bound of [split_loop] is never what ends the loop. *)
Lemma split_loop_enough (sep : jsstring) (f : nat) :
  sep <> [] -> forall s, length s < f ->
  split_loop f s sep = split_loop (S f) s sep.
Proof.
  intros Hsep. induction f as [|f IH]; intros s Hlen; [lia|].
  cbn [split_loop].
  destruct (indexOf s sep) as [j|] eqn:Ej; [|reflexivity].
  f_equal. apply IH.
  pose proof (indexOf_bound _ _ _ Ej) as Hb.
  rewrite length_skipn.
  destruct sep; [congruence | simpl in *; lia].
Qed.

(** [split] cuts at the first occurrence and goes on with what follows
    it. *)
Lemma split_eq (s sep : jsstring) :
  sep <> [] ->
  split s sep =
  match indexOf s sep with
  | None => [s]
  | Some j => firstn j s :: split (skipn (j + length sep) s) sep
  end.
Proof.
  intros Hsep. unfold split. cbn [split_loop].
  destruct (indexOf s sep) as [j|] eqn:Ej; [|reflexivity].
  f_equal.
  pose proof (indexOf_bound _ _ _ Ej) as Hb.
  assert (Hl : length (skipn (j + length sep) s) < length s).
  { rewrite length_skipn. destruct sep; [congruence | simpl in *; lia]. }
  remember (skipn (j + length sep) s) as t.
  clear - Hsep Hl.
  induction (length s) as [|n IH]; [lia|].
  destruct (Nat.eq_dec (length t) n) as [->|Hne]; [reflexivity|].
  rewrite <- split_loop_enough by (auto; lia).
  apply IH; lia.
Qed.

Lemma split_not_nil (s sep : jsstring) : split s sep <> [].
Proof.
  unfold split. cbn [split_loop].
  destruct (indexOf s sep); discriminate.
Qed.

End StringFacts.

(** ** Facts about the registry map *)

Section MapFacts.
Variable V : Type.
Implicit Types (mp : JsMap.t V) (k : jsstring).

Lemma get_set_same k (v : V) mp : JsMap.get k (JsMap.set k v mp) = Some v.
Proof.
  induction mp as [|[k' v'] mp IH]; simpl.
  - rewrite str_eqb_refl; reflexivity.
  - destruct (str_eqb k' k) eqn:E; simpl; rewrite E; auto.
Qed.

Lemma get_set_other k k' (v : V) mp :
  k <> k' -> JsMap.get k' (JsMap.set k v mp) = JsMap.get k' mp.
Proof.
  intros Hne. induction mp as [|[k0 v0] mp IH]; simpl.
  - apply str_eqb_neq in Hne. rewrite Hne; reflexivity.
  - destruct (str_eqb k0 k) eqn:E; simpl.
    + apply str_eqb_eq in E; subst k0.
      apply str_eqb_neq in Hne. rewrite Hne; reflexivity.
    + rewrite IH; reflexivity.
Qed.

Lemma get_keys k mp : JsMap.get k mp <> None <-> In k (JsMap.keys mp).
Proof.
  induction mp as [|[k0 v0] mp IH]; simpl.
  - split; [congruence | tauto].
  - destruct (str_eqb k0 k) eqn:E.
    + apply str_eqb_eq in E. split; [auto | discriminate].
    + apply str_eqb_neq in E. rewrite IH. split; [auto | intros [?|?]; tauto].
Qed.

End MapFacts.

(** ** The loader *)

Section Loader.
Variable h : Host.
Variable dir : jsstring.

Lemma registers_fun file file' lib funcs funcs' :
  registers h dir file lib funcs -> registers h dir file' lib funcs' ->
  file = file' /\ funcs = funcs'.
Proof.
  intros (He & Hl & c & s & Hr & Hs & _ & Hf)
         (He' & Hl' & c' & s' & Hr' & Hs' & _ & Hf').
  assert (file = file') by (eapply basename_inj; eauto; congruence).
  subst file'. split; [reflexivity|]. congruence.
Qed.

Lemma truthy_true (s : jsstring) : truthy s = true <-> s <> [].
Proof. destruct s; simpl; split; congruence. Qed.

(** One round of the loop, by cases on the entry. *)
Lemma loadLoop_cons file rest reg :
  loadLoop h dir (file :: rest) reg =
  if negb (endsWith file mapExt) then loadLoop h dir rest reg
  else match readFileSync h (path_join h dir file) with
       | None => (reg, Threw)
       | Some content =>
         match funcSectionOf content with
         | None => loadLoop h dir rest reg
         | Some funcSection =>
           if negb (truthy funcSection) then loadLoop h dir rest reg
           else loadLoop h dir rest
                  (JsMap.set (basename file mapExt)
                             (parseSection funcSection) reg)
         end
       end.
Proof. reflexivity. Qed.

Ltac loop_cases file :=
  rewrite loadLoop_cons;
  destruct (endsWith file mapExt) eqn:Hext; cbn [negb];
  [ destruct (readFileSync h (path_join h dir file)) as [content|] eqn:Hread;
    [ destruct (funcSectionOf content) as [sec|] eqn:Hsec;
      [ destruct (truthy sec) eqn:Htr; cbn [negb] | ] | ] | ].

Lemma loadLoop_app_returned files1 files2 reg reg1 :
  loadLoop h dir files1 reg = (reg1, Returned) ->
  loadLoop h dir (files1 ++ files2) reg = loadLoop h dir files2 reg1.
Proof.
  revert reg; induction files1 as [|file files1 IH]; intros reg.
  - simpl. intros E; inversion E; reflexivity.
  - rewrite <- app_comm_cons. rewrite !loadLoop_cons.
    destruct (endsWith file mapExt); cbn [negb]; auto.
    destruct (readFileSync h (path_join h dir file)) as [content|];
      [|discriminate].
    destruct (funcSectionOf content) as [sec|]; auto.
    destruct (truthy sec); cbn [negb]; auto.
Qed.

Lemma loadLoop_readable files reg :
  (forall f, In f files -> endsWith f mapExt = true ->
             readFileSync h (path_join h dir f) <> None) ->
  snd (loadLoop h dir files reg) = Returned.
Proof.
  revert reg; induction files as [|file files IH]; intros reg Hall.
  - reflexivity.
  - assert (Hrest : forall f, In f files -> endsWith f mapExt = true ->
                              readFileSync h (path_join h dir f) <> None)
      by (intros; apply Hall; simpl; auto).
    loop_cases file; auto.
    exfalso. apply (Hall file); simpl; auto.
Qed.

(** Every key of the rebuilt registry was there before the loop or comes
    from an entry of the listing. *)
Lemma loadLoop_key_origin files reg lib :
  JsMap.get lib (fst (loadLoop h dir files reg)) <> None ->
  JsMap.get lib reg <> None \/
  exists file funcs, In file files /\ registers h dir file lib funcs.
Proof.
  revert reg; induction files as [|file files IH]; intros reg.
  - simpl; auto.
  - assert (Hweak : forall reg0,
      JsMap.get lib (fst (loadLoop h dir files reg0)) <> None ->
      JsMap.get lib reg0 <> None \/
      exists f funcs, In f (file :: files) /\ registers h dir f lib funcs).
    { intros reg0 H0. destruct (IH reg0 H0) as [?|(f & fs & Hin & Hr)]; auto.
      right; exists f, fs; simpl; auto. }
    loop_cases file; auto.
    intros H0. destruct (Hweak _ H0) as [Hset|?]; auto.
    destruct (str_eqb (basename file mapExt) lib) eqn:E.
    + apply str_eqb_eq in E. right.
      exists file, (parseSection sec). split; [simpl; auto|].
      repeat split; auto. exists content, sec.
      repeat split; auto. apply truthy_true; assumption.
    + apply str_eqb_neq in E. rewrite get_set_other in Hset by assumption.
      auto.
Qed.

(** A value installed by a descriptor is not changed by the rest of the
    loop: only the same file could write under the same name. *)
Lemma loadLoop_keeps files reg lib f0 funcs :
  registers h dir f0 lib funcs ->
  JsMap.get lib reg = Some funcs ->
  JsMap.get lib (fst (loadLoop h dir files reg)) = Some funcs.
Proof.
  intros Hreg. revert reg; induction files as [|file files IH]; intros reg Hget.
  - assumption.
  - loop_cases file; auto.
    apply IH.
    destruct (str_eqb (basename file mapExt) lib) eqn:E.
    + apply str_eqb_eq in E. subst lib. rewrite get_set_same. f_equal.
      assert (Hr : registers h dir file (basename file mapExt) (parseSection sec)).
      { repeat split; auto. exists content, sec.
        repeat split; auto. apply truthy_true; assumption. }
      destruct (registers_fun _ _ _ _ _ Hr Hreg) as [_ ->]. reflexivity.
    + apply str_eqb_neq in E. rewrite get_set_other by assumption.
      assumption.
Qed.

(** When the loop returns, every descriptor of the listing with a
    non-empty function section has its records in the registry. *)
Lemma loadLoop_installs files reg file lib funcs :
  snd (loadLoop h dir files reg) = Returned ->
  In file files -> registers h dir file lib funcs ->
  JsMap.get lib (fst (loadLoop h dir files reg)) = Some funcs.
Proof.
  intros Hret Hin Hreg. revert reg Hret.
  induction files as [|f files IH]; intros reg; [destruct Hin|].
  destruct Hin as [->|Hin].
  - destruct Hreg as (He & Hl & c & s & Hr & Hs & Hne & Hf).
    rewrite loadLoop_cons, He, Hr, Hs. cbn [negb].
    apply truthy_true in Hne. rewrite Hne. cbn [negb]. intros _.
    apply loadLoop_keeps with (f0 := file).
    + repeat split; auto. exists c, s. repeat split; auto.
      apply truthy_true; assumption.
    + subst. apply get_set_same.
  - loop_cases f; auto. discriminate.
Qed.

End Loader.

(** ** Occurrences of a separator *)

Section Occurrences.

Lemma indexOf_unfold (s sep : jsstring) :
  indexOf s sep =
  if startsWith s sep then Some 0
  else match s with
       | [] => None
       | _ :: s' => option_map S (indexOf s' sep)
       end.
Proof. destruct s; reflexivity. Qed.

Lemma indexOf_firstAt (s sep : jsstring) (i : nat) :
  indexOf s sep = Some i -> firstAt s sep i.
Proof.
  revert i; induction s as [|c s IH]; intros i; rewrite indexOf_unfold.
  - destruct (startsWith [] sep) eqn:E; [|discriminate].
    intros H; inversion H; subst. split; [exact E | intros k Hk; lia].
  - destruct (startsWith (c :: s) sep) eqn:E.
    + intros H; inversion H; subst. split; [exact E | intros k Hk; lia].
    + destruct (indexOf s sep) as [j|]; [|discriminate].
      intros H; inversion H; subst.
      destruct (IH j eq_refl) as [Ho Hf]. split; [exact Ho|].
      intros [|k] Hk; unfold occursAt; simpl.
      * congruence.
      * apply Hf; lia.
Qed.

Lemma firstAt_indexOf (s sep : jsstring) (i : nat) :
  firstAt s sep i -> indexOf s sep = Some i.
Proof.
  revert s; induction i as [|i IH]; intros s [Ho Hf]; rewrite indexOf_unfold.
  - unfold occursAt in Ho; simpl in Ho. rewrite Ho; reflexivity.
  - assert (E : startsWith s sep = false).
    { destruct (startsWith s sep) eqn:E; [|reflexivity].
      exfalso; apply (Hf 0); [lia | exact E]. }
    rewrite E. destruct s as [|c s].
    + unfold occursAt in Ho; simpl in Ho. congruence.
    + rewrite (IH s); [reflexivity|]. split; [exact Ho|].
      intros k Hk Hocc. apply (Hf (S k)); [lia | exact Hocc].
Qed.

Lemma indexOf_absent (s sep : jsstring) :
  indexOf s sep = None <-> absent s sep.
Proof.
  split.
  - induction s as [|c s IH]; rewrite indexOf_unfold.
    + destruct (startsWith [] sep) eqn:E; [discriminate|].
      intros _ i. unfold occursAt. rewrite skipn_nil. congruence.
    + destruct (startsWith (c :: s) sep) eqn:E; [discriminate|].
      destruct (indexOf s sep); [discriminate|].
      intros _ [|i]; unfold occursAt; simpl; [congruence|].
      apply IH; reflexivity.
  - intros Ha. destruct (indexOf s sep) as [i|] eqn:E; [|reflexivity].
    exfalso. apply (Ha i). apply indexOf_firstAt, E.
Qed.

Lemma marker_not_nil : marker <> [].
Proof. discriminate. Qed.

(** The function section is what lies between the first occurrence of
    the marker and the next one after it, or the end of the text. *)
Lemma funcSectionOf_eq (content : jsstring) :
  funcSectionOf content =
  match indexOf content marker with
  | None => None
  | Some i =>
    let after := skipn (i + length marker) content in
    Some (match indexOf after marker with
          | None => after
          | Some j => firstn j after
          end)
  end.
Proof.
  unfold funcSectionOf. fold marker.
  rewrite split_eq by apply marker_not_nil.
  destruct (indexOf content marker) as [i|]; [|reflexivity].
  cbn [nth_error]. rewrite split_eq by apply marker_not_nil.
  cbv zeta. destruct (indexOf _ marker); reflexivity.
Qed.

End Occurrences.

(** ** Reloading *)

Section Reload.

Lemma loadMapFiles_dir h dir files reg :
  descriptorDir h dir files ->
  loadMapFiles h reg = loadLoop h dir files [].
Proof.
  intros (Hd & Hne & Hex & Hls). unfold loadMapFiles.
  rewrite Hd, Hex. apply truthy_true in Hne. rewrite Hne.
  cbn [negb orb]. rewrite Hls. reflexivity.
Qed.

Lemma loadMapFiles_absent h reg :
  dirAbsent h -> loadMapFiles h reg = ([], Returned).
Proof.
  unfold dirAbsent, loadMapFiles.
  destruct (getMapDir h) as [dir|]; [|reflexivity].
  intros ->. rewrite orb_true_r. reflexivity.
Qed.

(** Either the descriptor directory is there and listed, or [reload]
    leaves the empty registry. *)
Lemma loadMapFiles_cases h reg :
  (exists dir files, descriptorDir h dir files) \/
  fst (loadMapFiles h reg) = [].
Proof.
  unfold loadMapFiles, descriptorDir. cbv zeta. cbn [JsMap.clear].
  destruct (getMapDir h) as [dir|]; [|right; reflexivity].
  destruct (truthy dir) eqn:Et; [|right; reflexivity].
  destruct (existsSync h dir) eqn:Ee; [|right; reflexivity].
  destruct (readdirSync h dir) as [files|] eqn:El; [|right; reflexivity].
  left. exists dir, files. apply truthy_true in Et. auto.
Qed.

(** The registry a reload finds has no part in the registry it leaves. *)
Lemma loadMapFiles_fresh h reg reg' :
  loadMapFiles h reg = loadMapFiles h reg'.
Proof. reflexivity. Qed.

End Reload.

(** ** Facts about the matcher *)

Section Matcher.
Variable p : char -> bool.

Lemma take_drop s : takeWhile p s ++ dropWhile p s = s.
Proof.
  induction s as [|c s IH]; simpl; [reflexivity|].
  destruct (p c); simpl; [rewrite IH|]; reflexivity.
Qed.

Lemma takeWhile_all s : all p (takeWhile p s).
Proof.
  induction s as [|c s IH]; simpl; [constructor|].
  destruct (p c) eqn:E; constructor; assumption.
Qed.

(** A run of the class followed by something outside it is what
    [takeWhile] cuts off. *)
Lemma span_app w rest :
  all p w -> (forall c s', rest = c :: s' -> p c = false) ->
  takeWhile p (w ++ rest) = w /\ dropWhile p (w ++ rest) = rest.
Proof.
  intros Hw Hrest. induction Hw as [|c w Hc Hw IH]; simpl.
  - destruct rest as [|c s']; [split; reflexivity|].
    simpl. rewrite (Hrest c s' eq_refl). split; reflexivity.
  - rewrite Hc. destruct IH as [-> ->]. split; reflexivity.
Qed.

Lemma star_class k fuel : forall pos s cs,
  length s <= fuel ->
  star_loop (m (Class p)) k fuel pos s cs = greedy p k pos s cs.
Proof.
  induction fuel as [|n IH]; intros pos s cs Hlen.
  - destruct s; [reflexivity | simpl in Hlen; lia].
  - cbn [star_loop m]. destruct s as [|c s]; [reflexivity|].
    cbn [greedy]. destruct (p c); [|reflexivity].
    replace (length s <? length (c :: s)) with true
      by (symmetry; apply Nat.ltb_lt; simpl; lia).
    rewrite IH by (simpl in Hlen; lia). reflexivity.
Qed.

Lemma m_star_class k pos s cs :
  m (Star (Class p)) k pos s cs = greedy p k pos s cs.
Proof. cbn [m]. apply star_class. lia. Qed.

Lemma m_plus_class k pos s cs :
  m (Plus (Class p)) k pos s cs =
  match s with
  | c :: s' => if p c then greedy p k (S pos) s' cs else None
  | [] => None
  end.
Proof.
  unfold Plus. cbn [m]. destruct s as [|c s]; [reflexivity|].
  destruct (p c); [|reflexivity]. apply star_class. lia.
Qed.

(** Before a continuation that cannot start inside the run, the
    iteration takes the whole run. *)
Lemma greedy_span k : failsOn p k -> forall s pos cs,
  greedy p k pos s cs =
  k (pos + length (takeWhile p s)) (dropWhile p s) cs.
Proof.
  intros Hk. induction s as [|c s IH]; intros pos cs; simpl.
  - rewrite Nat.add_0_r; reflexivity.
  - destruct (p c) eqn:E.
    + rewrite IH. simpl. rewrite (Hk pos c s cs E).
      replace (pos + S (length (takeWhile p s)))
        with (S pos + length (takeWhile p s)) by lia.
      destruct (k _ _ _); reflexivity.
    + simpl. rewrite Nat.add_0_r; reflexivity.
Qed.

Lemma m_star_span k pos s cs : failsOn p k ->
  m (Star (Class p)) k pos s cs =
  k (pos + length (takeWhile p s)) (dropWhile p s) cs.
Proof. intros Hk. rewrite m_star_class. apply greedy_span, Hk. Qed.

Lemma m_plus_span k pos s cs : failsOn p k ->
  m (Plus (Class p)) k pos s cs =
  match takeWhile p s with
  | [] => None
  | _ :: _ => k (pos + length (takeWhile p s)) (dropWhile p s) cs
  end.
Proof.
  intros Hk. rewrite m_plus_class. destruct s as [|c s]; [reflexivity|].
  simpl. destruct (p c); [|reflexivity].
  rewrite greedy_span by assumption. simpl. f_equal. lia.
Qed.

(** Before a continuation that always succeeds, the iteration
    succeeds. *)
Lemma greedy_total k :
  (forall pos s cs, k pos s cs <> None) ->
  forall s pos cs, greedy p k pos s cs <> None.
Proof.
  intros Hk. induction s as [|c s IH]; intros pos cs; simpl; auto.
  destruct (p c); auto.
  destruct (greedy p k (S pos) s cs); [discriminate | auto].
Qed.

End Matcher.

Section Search.
Variable r : re.

Lemma search_unfold pos s :
  search r pos s =
  match anchored r pos s with
  | Some x => Some x
  | None => match s with
            | [] => None
            | _ :: s' => search r (S pos) s'
            end
  end.
Proof. destruct s; reflexivity. Qed.

(** [search] answers with the match at the first offset that has one. *)
Lemma search_first (pre s : jsstring) (pos : nat) (res : result) :
  (forall k, k < length pre ->
             anchored r (pos + k) (skipn k (pre ++ s)) = None) ->
  anchored r (pos + length pre) s = Some res ->
  search r pos (pre ++ s) = Some res.
Proof.
  revert pos; induction pre as [|c pre IH]; intros pos Hfail Hhit.
  - simpl in *. rewrite Nat.add_0_r in Hhit.
    rewrite search_unfold, Hhit. reflexivity.
  - cbn [app]. rewrite search_unfold.
    pose proof (Hfail 0) as H0. cbn [skipn app] in H0.
    rewrite Nat.add_0_r in H0. rewrite H0 by (simpl; lia).
    apply IH.
    + intros k Hk. specialize (Hfail (S k)). simpl in Hfail.
      replace (S pos + k) with (pos + S k) by lia. apply Hfail. lia.
    + replace (S pos + length pre) with (pos + length (c :: pre))
        by (simpl; lia). assumption.
Qed.

Lemma search_some (s : jsstring) (pos : nat) (res : result) :
  search r pos s = Some res ->
  exists i, i <= length s /\
            anchored r (pos + i) (skipn i s) = Some res /\
            forall k, k < i -> anchored r (pos + k) (skipn k s) = None.
Proof.
  revert pos; induction s as [|c s IH]; intros pos; rewrite search_unfold.
  - destruct (anchored r pos []) eqn:E; [|discriminate].
    intros H; inversion H; subst. exists 0. simpl. rewrite Nat.add_0_r.
    repeat split; auto. intros k Hk; lia.
  - destruct (anchored r pos (c :: s)) eqn:E.
    + intros H; inversion H; subst. exists 0. simpl. rewrite Nat.add_0_r.
      repeat split; auto; [lia | intros k Hk; lia].
    + intros H. destruct (IH _ H) as (i & Hi & Hhit & Hfail).
      exists (S i). simpl. repeat split; [lia | |].
      * replace (pos + S i) with (S pos + i) by lia. assumption.
      * intros [|k] Hk; simpl.
        -- rewrite Nat.add_0_r; assumption.
        -- replace (pos + S k) with (S pos + k) by lia. apply Hfail; lia.
Qed.

Lemma search_none (s : jsstring) (pos : nat) :
  search r pos s = None ->
  forall k, k <= length s -> anchored r (pos + k) (skipn k s) = None.
Proof.
  revert pos; induction s as [|c s IH]; intros pos; rewrite search_unfold.
  - destruct (anchored r pos []) eqn:E; [discriminate|].
    intros _ k Hk. simpl in Hk. assert (k = 0) by lia; subst.
    simpl. rewrite Nat.add_0_r; assumption.
  - destruct (anchored r pos (c :: s)) eqn:E; [discriminate|].
    intros H [|k] Hk; simpl.
    + rewrite Nat.add_0_r; assumption.
    + replace (pos + S k) with (S pos + k) by lia.
      apply IH; [assumption | simpl in Hk; lia].
Qed.

End Search.

(** ** The patterns of the providers *)

Section Patterns.

Lemma m_chr a k pos s cs :
  m (Chr a) k pos s cs =
  match s with
  | c :: s' => if N.eqb (ch a) c then k (S pos) s' cs else None
  | [] => None
  end.
Proof. reflexivity. Qed.

Lemma class_excludes (p : char -> bool) a c :
  p (ch a) = false -> p c = true -> N.eqb (ch a) c = false.
Proof.
  intros Ha Hc. destruct (N.eqb_spec (ch a) c); [subst; congruence | reflexivity].
Qed.

Lemma firstn_prefix (a b : jsstring) n :
  n = length a -> firstn n (a ++ b) = a.
Proof.
  intros ->. rewrite firstn_app, firstn_all, Nat.sub_diag. simpl.
  apply app_nil_r.
Qed.

Lemma call_anchored pos s :
  anchored re_call pos s =
  match takeWhile isWord s, dropWhile isWord s with
  | _ :: _, d :: r2 =>
    if N.eqb (ch ".") d then
      match takeWhile isWord r2, dropWhile isWord r2 with
      | _ :: _, e :: r4 =>
        if N.eqb (ch "(") e then
          Some (S (S (pos + length (takeWhile isWord s))
                   + length (takeWhile isWord r2)), r4,
                [(0, takeWhile isWord s ++ d :: takeWhile isWord r2 ++ [e]);
                 (2, takeWhile isWord r2);
                 (1, takeWhile isWord s)])
        else None
      | _, _ => None
      end
    else None
  | _, _ => None
  end.
Proof.
  unfold anchored, re_call, W. cbn [m]. fold (Plus (Class isWord)).
  rewrite m_plus_span.
  2:{ intros q c t cs Hc. cbv beta. rewrite m_chr.
      rewrite (class_excludes isWord "." c eq_refl Hc). reflexivity. }
  pose proof (take_drop isWord s) as Hs.
  destruct (takeWhile isWord s) as [|c1 w1] eqn:E1; [reflexivity|].
  rewrite <- E1 in *. clear E1 c1 w1.
  rewrite m_chr.
  destruct (dropWhile isWord s) as [|d r2] eqn:E2; [reflexivity|].
  destruct (N.eqb (ch ".") d) eqn:Ed; [|reflexivity].
  rewrite m_plus_span.
  2:{ intros q c t cs Hc. cbv beta. rewrite m_chr.
      rewrite (class_excludes isWord "(" c eq_refl Hc). reflexivity. }
  pose proof (take_drop isWord r2) as Hr.
  destruct (takeWhile isWord r2) as [|c2 w2] eqn:E3; [reflexivity|].
  rewrite <- E3 in *. clear E3 c2 w2.
  rewrite m_chr.
  destruct (dropWhile isWord r2) as [|e r4] eqn:E4; [reflexivity|].
  destruct (N.eqb (ch "(") e) eqn:Ee; [|reflexivity].
  unfold accept.
  set (w1 := takeWhile isWord s) in *.
  set (w2 := takeWhile isWord r2) in *.
  clearbody w1 w2. clear E2 E4. subst r2. subst s.
  repeat f_equal.
  - replace (w1 ++ d :: w2 ++ e :: r4) with ((w1 ++ d :: w2 ++ [e]) ++ r4)
      by (rewrite <- app_assoc; simpl; rewrite <- app_assoc; reflexivity).
    apply firstn_prefix. rewrite length_app. cbn [length].
    rewrite length_app. cbn [length]. lia.
  - apply firstn_prefix. lia.
  - apply firstn_prefix. lia.
Qed.

(** At a given offset the call pattern matches exactly the texts that
    start with the call shape, and captures its two identifiers. *)
Lemma call_anchored_hit pos lib fn post :
  identifier lib -> identifier fn ->
  exists q,
    anchored re_call pos (lib ++ lit "." ++ fn ++ lit "(" ++ post) =
    Some (q, post, [(0, lib ++ lit "." ++ fn ++ lit "("); (2, fn); (1, lib)]).
Proof.
  intros [Hl1 Hl2] [Hf1 Hf2]. rewrite call_anchored.
  destruct (span_app isWord fn (lit "(" ++ post) Hf2) as [T2 D2].
  { intros c s' H; inversion H; reflexivity. }
  destruct (span_app isWord lib (lit "." ++ fn ++ lit "(" ++ post) Hl2)
    as [T1 D1].
  { intros c s' H; inversion H; reflexivity. }
  rewrite T1, D1. destruct lib as [|l0 lib]; [congruence|].
  cbn [lit list_ascii_of_string map app]. rewrite N.eqb_refl.
  change (fn ++ ch "(" :: post) with (fn ++ lit "(" ++ post).
  rewrite T2, D2. destruct fn as [|f0 fn]; [congruence|].
  cbn [lit list_ascii_of_string map app]. rewrite N.eqb_refl.
  eexists. reflexivity.
Qed.

Lemma call_anchored_shape pos s res :
  anchored re_call pos s = Some res ->
  exists lib fn post : jsstring,
    s = lib ++ lit "." ++ fn ++ lit "(" ++ post /\
    identifier lib /\ identifier fn /\
    group 1 res = lib /\ group 2 res = fn.
Proof.
  rewrite call_anchored.
  pose proof (take_drop isWord s) as Hs.
  pose proof (takeWhile_all isWord s) as Ha.
  destruct (takeWhile isWord s) as [|c1 w1] eqn:E1; [discriminate|].
  destruct (dropWhile isWord s) as [|d r2] eqn:E2; [discriminate|].
  destruct (N.eqb_spec (ch ".") d) as [<-|]; [|discriminate].
  pose proof (take_drop isWord r2) as Hr.
  pose proof (takeWhile_all isWord r2) as Hb.
  destruct (takeWhile isWord r2) as [|c2 w2] eqn:E3; [discriminate|].
  destruct (dropWhile isWord r2) as [|e r4] eqn:E4; [discriminate|].
  destruct (N.eqb_spec (ch "(") e) as [<-|]; [|discriminate].
  intros H; inversion H; subst res.
  exists (c1 :: w1), (c2 :: w2), r4.
  repeat split; try discriminate; try assumption.
  rewrite <- Hs, <- Hr. reflexivity.
Qed.

Lemma member_anchored pos s :
  anchored re_member pos s =
  match takeWhile isWord s, dropWhile isWord s with
  | _ :: _, d :: r2 =>
    if N.eqb (ch ".") d then
      match dropWhile isWord r2 with
      | [] =>
        Some (S (pos + length (takeWhile isWord s))
              + length (takeWhile isWord r2), [],
              [(0, s); (2, takeWhile isWord r2); (1, takeWhile isWord s)])
      | _ :: _ => None
      end
    else None
  | _, _ => None
  end.
Proof.
  unfold anchored, re_member, W. cbn [m]. fold (Plus (Class isWord)).
  rewrite m_plus_span.
  2:{ intros q c t cs Hc. cbv beta. rewrite m_chr.
      rewrite (class_excludes isWord "." c eq_refl Hc). reflexivity. }
  pose proof (take_drop isWord s) as Hs.
  destruct (takeWhile isWord s) as [|c1 w1] eqn:E1; [reflexivity|].
  rewrite <- E1 in *. clear E1 c1 w1.
  rewrite m_chr.
  destruct (dropWhile isWord s) as [|d r2] eqn:E2; [reflexivity|].
  destruct (N.eqb (ch ".") d) eqn:Ed; [|reflexivity].
  match goal with
  | |- star_loop _ ?k _ ?q ?t ?c = ?rhs =>
    change (m (Star (Class isWord)) k q t c = rhs)
  end.
  rewrite m_star_span.
  2:{ intros q c t cs Hc. reflexivity. }
  pose proof (take_drop isWord r2) as Hr.
  destruct (dropWhile isWord r2) as [|e r4] eqn:E4; [|reflexivity].
  unfold accept.
  set (w1 := takeWhile isWord s) in *.
  set (w2 := takeWhile isWord r2) in *.
  clearbody w1 w2. clear E2 E4. subst r2. subst s.
  repeat f_equal.
  - rewrite firstn_all2; [reflexivity|].
    rewrite length_app. cbn [length]. rewrite length_app. cbn [length]. lia.
  - rewrite firstn_all2; [apply app_nil_r|].
    rewrite length_app. cbn [length]. lia.
  - apply firstn_prefix. lia.
Qed.

Lemma member_anchored_hit pos lib prefix :
  identifier lib -> all isWord prefix ->
  exists q,
    anchored re_member pos (lib ++ lit "." ++ prefix) =
    Some (q, [], [(0, lib ++ lit "." ++ prefix); (2, prefix); (1, lib)]).
Proof.
  intros [Hl1 Hl2] Hp. rewrite member_anchored.
  destruct (span_app isWord prefix [] Hp) as [T2 D2]; [discriminate|].
  rewrite app_nil_r in T2, D2.
  destruct (span_app isWord lib (lit "." ++ prefix) Hl2) as [T1 D1].
  { intros c s' H; inversion H; reflexivity. }
  rewrite T1, D1. destruct lib as [|l0 lib]; [congruence|].
  cbn [lit list_ascii_of_string map app]. rewrite N.eqb_refl.
  rewrite T2, D2. eexists. reflexivity.
Qed.

Lemma member_anchored_shape pos s res :
  anchored re_member pos s = Some res ->
  exists lib prefix : jsstring,
    s = lib ++ lit "." ++ prefix /\
    identifier lib /\ all isWord prefix /\
    group 1 res = lib /\ group 2 res = prefix.
Proof.
  rewrite member_anchored.
  pose proof (take_drop isWord s) as Hs.
  pose proof (takeWhile_all isWord s) as Ha.
  destruct (takeWhile isWord s) as [|c1 w1] eqn:E1; [discriminate|].
  destruct (dropWhile isWord s) as [|d r2] eqn:E2; [discriminate|].
  destruct (N.eqb_spec (ch ".") d) as [<-|]; [|discriminate].
  pose proof (take_drop isWord r2) as Hr.
  pose proof (takeWhile_all isWord r2) as Hb.
  destruct (dropWhile isWord r2) as [|e r4] eqn:E4; [|discriminate].
  intros H; inversion H; subst res.
  exists (c1 :: w1), (takeWhile isWord r2).
  repeat split; try discriminate; try assumption.
  rewrite app_nil_r in Hr. rewrite Hr. rewrite <- Hs. reflexivity.
Qed.

Lemma m_str a k pos s cs :
  m (Str a) k pos s cs =
  if startsWith s (map ch a)
  then k (pos + length a) (skipn (length a) s) cs
  else None.
Proof.
  revert pos s; induction a as [|x a IH]; intros pos s; cbn [Str m map].
  - simpl. rewrite Nat.add_0_r. reflexivity.
  - rewrite m_chr. destruct s as [|c s]; [reflexivity|].
    cbn [startsWith length skipn]. destruct (N.eqb (ch x) c); [|reflexivity].
    rewrite IH. cbn [andb].
    replace (S pos + length a) with (pos + S (length a)) by lia.
    reflexivity.
Qed.

Lemma search_bol r pos s : search (Bol ;; r) (S pos) s = None.
Proof.
  revert pos; induction s as [|c s IH]; intros pos; rewrite search_unfold.
  - reflexivity.
  - unfold anchored at 1. cbn [m Nat.eqb]. apply IH.
Qed.

End Patterns.

(** ** Contexts found on the line *)

Section Contexts.

Lemma callSite_some text lib fn :
  callSite text = Some (lib, fn) ->
  exists pre post : jsstring,
    text = pre ++ lib ++ lit "." ++ fn ++ lit "(" ++ post /\
    identifier lib /\ identifier fn /\
    forall k, k < length pre -> ~ callShapeAt text k.
Proof.
  unfold callSite, exec.
  destruct (search re_call 0 text) as [res|] eqn:E; [|discriminate].
  intros H; inversion H; subst; clear H.
  destruct (search_some _ _ _ _ E) as (i & Hi & Hhit & Hfail).
  destruct (call_anchored_shape _ _ _ Hhit)
    as (lib & fn & post & Hs & Hl & Hf & G1 & G2).
  rewrite G1, G2.
  exists (firstn i text), post.
  split; [|split; [assumption|split; [assumption|]]].
  - rewrite <- Hs. symmetry; apply firstn_skipn.
  - intros k Hk (lib' & fn' & post' & Hs' & Hl' & Hf').
    rewrite length_firstn in Hk.
    specialize (Hfail k ltac:(lia)). rewrite Hs' in Hfail.
    destruct (call_anchored_hit (0 + k) _ _ post' Hl' Hf') as [q Hq].
    congruence.
Qed.

Lemma callSite_none text :
  callSite text = None -> forall k, ~ callShapeAt text k.
Proof.
  unfold callSite, exec.
  destruct (search re_call 0 text) as [res|] eqn:E; [discriminate|].
  intros _ k (lib & fn & post & Hs & Hl & Hf).
  destruct (Nat.le_gt_cases k (length text)) as [Hk|Hk].
  - pose proof (search_none _ _ _ E k Hk) as Hn. rewrite Hs in Hn.
    destruct (call_anchored_hit (0 + k) _ _ post Hl Hf) as [q Hq].
    congruence.
  - rewrite skipn_all2 in Hs by lia.
    destruct Hl as [Hl _]. destruct lib; [congruence | discriminate].
Qed.

End Contexts.

Section MoreContexts.

Lemma all_word_nonWord w : all isWord w -> filter nonWord w = [].
Proof.
  intros H; induction H as [|c w Hc _ IH]; simpl; [reflexivity|].
  unfold nonWord at 1. rewrite Hc. exact IH.
Qed.

Lemma nonWord_count_app a b :
  length (filter nonWord (a ++ b)) =
  length (filter nonWord a) + length (filter nonWord b).
Proof. rewrite filter_app, length_app. reflexivity. Qed.

(** On a line that ends with [lib.prefix], the identifier reaching back
    to a word boundary, the member pattern finds exactly that pair. *)
Lemma memberAccess_at pre lib prefix :
  wordBoundary pre -> identifier lib -> all isWord prefix ->
  memberAccess (pre ++ lib ++ lit "." ++ prefix) = Some (lib, prefix).
Proof.
  intros Hb Hl Hp. unfold memberAccess, exec.
  destruct (member_anchored_hit (0 + length pre) lib prefix Hl Hp) as [q Hq].
  rewrite (search_first re_member pre _ 0 _) with (2 := Hq); [reflexivity|].
  intros k Hk.
  destruct (anchored re_member (0 + k) _) as [res|] eqn:E; [|reflexivity].
  exfalso.
  destruct (member_anchored_shape _ _ _ E)
    as (lib' & prefix' & Hs & [_ Hl'] & Hp' & _).
  rewrite skipn_app in Hs.
  replace (k - length pre) with 0 in Hs by lia. cbn [skipn] in Hs.
  destruct (exists_last (l := pre)) as (p0 & c & Hpre).
  { intros ->. simpl in Hk. lia. }
  pose proof (Hb p0 c Hpre) as Hc. subst pre.
  rewrite length_app in Hk. simpl in Hk.
  rewrite skipn_app in Hs.
  replace (k - length p0) with 0 in Hs by lia. cbn [skipn] in Hs.
  apply (f_equal (fun s => length (filter nonWord s))) in Hs.
  rewrite !nonWord_count_app in Hs.
  destruct Hl as [_ Hl].
  rewrite (all_word_nonWord _ Hl), (all_word_nonWord _ Hp),
          (all_word_nonWord _ Hl'), (all_word_nonWord _ Hp') in Hs.
  cbn [filter] in Hs. unfold nonWord at 2 in Hs. rewrite Hc in Hs.
  simpl in Hs. lia.
Qed.

End MoreContexts.

Section UsingAndCommas.

Lemma m_seq a b k pos s cs : m (a ;; b) k pos s cs = m a (m b k) pos s cs.
Proof. reflexivity. Qed.

Lemma m_group n a k pos s cs :
  m (Group n a) k pos s cs =
  m a (fun pos' s' cs' => k pos' s' ((n, firstn (pos' - pos) s) :: cs'))
    pos s cs.
Proof. reflexivity. Qed.

Lemma exec_bol r s :
  exec (Bol ;; r) s = anchored (Bol ;; r) 0 s.
Proof.
  unfold exec. rewrite search_unfold.
  destruct (anchored (Bol ;; r) 0 s); [reflexivity|].
  destruct s; [reflexivity | apply search_bol].
Qed.

Lemma using_anchored line :
  anchored re_using 0 line <> None <->
  exists c rest, dropWhile isSpace line = lit "using" ++ c :: rest /\
                 isSpace c = true.
Proof.
  unfold anchored, re_using, Sp. fold usingWord.
  rewrite m_group, m_seq. cbn [m Nat.eqb].
  match goal with
  | |- star_loop _ ?k _ ?q ?t ?c <> None <-> ?R =>
    change (m (Star (Class isSpace)) k q t c <> None <-> R)
  end.
  rewrite m_star_span.
  2:{ intros q c t cs Hc. rewrite m_str. unfold usingWord.
      cbn [list_ascii_of_string map startsWith].
      rewrite (class_excludes isSpace "u" c eq_refl Hc). reflexivity. }
  rewrite m_str.
  change (map ch usingWord) with (lit "using").
  destruct (startsWith (dropWhile isSpace line) (lit "using")) eqn:E.
  - apply startsWith_spec in E. destruct E as [rest E]. rewrite E.
    rewrite skipn_app.
    change (skipn (length usingWord) (lit "using")) with (@nil char).
    change (length usingWord - length (lit "using")) with 0.
    cbn [skipn app]. rewrite m_plus_class.
    destruct rest as [|c rest].
    + split; [congruence|]. intros (c & rest & H & _).
      apply app_inv_head in H. discriminate.
    + destruct (isSpace c) eqn:Ec.
      * split; [intros _; exists c, rest; auto|]. intros _.
        apply greedy_total. intros; discriminate.
      * split; [congruence|]. intros (c' & rest' & H & Hc').
        apply app_inv_head in H. inversion H; subst. congruence.
  - split; [congruence|]. intros (c & rest & H & _).
    rewrite H, startsWith_app in E. discriminate.
Qed.

Lemma using_test line : test re_using line = true <-> usingShape line.
Proof.
  unfold test. unfold re_using at 1. rewrite exec_bol. fold re_using.
  pose proof (using_anchored line) as Ha.
  split.
  - intros H.
    assert (Hn : anchored re_using 0 line <> None)
      by (destruct (anchored re_using 0 line); congruence).
    apply Ha in Hn. destruct Hn as (c & rest & Hd & Hc).
    exists (takeWhile isSpace line), [c], rest.
    split; [|split; [apply takeWhile_all|split; [|discriminate]]].
    + rewrite <- (take_drop isSpace line) at 1. rewrite Hd. reflexivity.
    + constructor; [assumption | constructor].
  - intros (ws1 & ws2 & rest & Hl & H1 & H2 & Hne).
    destruct ws2 as [|c ws2]; [congruence|].
    inversion H2; subst.
    destruct (span_app isSpace ws1 (lit "using" ++ (c :: ws2) ++ rest) H1)
      as [_ Hd].
    { intros x s' H; inversion H; reflexivity. }
    assert (Hn : anchored re_using 0
                   (ws1 ++ lit "using" ++ (c :: ws2) ++ rest) <> None).
    { apply using_anchored. exists c, (ws2 ++ rest). split; assumption. }
    destruct (anchored re_using 0 _); congruence.
Qed.

(** The global comma pattern finds one match per comma. *)
Lemma matchAll_loop_comma : forall s fuel pos,
  length s < fuel ->
  length (matchAll_loop fuel re_comma pos s) = countChar (ch ",") s.
Proof.
  induction s as [|c s IH]; intros [|f] pos Hlen; try (simpl in Hlen; lia).
  - reflexivity.
  - cbn [matchAll_loop]. rewrite search_unfold.
    unfold anchored at 1, re_comma. rewrite m_group, m_chr.
    unfold countChar. cbn [filter].
    destruct (N.eqb (ch ",") c) eqn:E.
    + unfold accept.
      replace (S pos - pos) with 1 by lia.
      cbn [group snd lookup Nat.eqb firstn length].
      f_equal. apply IH. simpl in Hlen; lia.
    + change (length (matchAll_loop (S f) re_comma (S pos) s)
              = countChar (ch ",") s).
      apply IH. simpl in Hlen; lia.
Qed.

Lemma matchAll_comma s :
  length (matchAll re_comma s) = countChar (ch ",") s.
Proof. unfold matchAll. apply matchAll_loop_comma. lia. Qed.

End UsingAndCommas.

(** ** Soundness of the matcher *)

Section Soundness.

Lemma star_loop_sound a :
  (forall k pos s cs res, m a k pos s cs = Some res -> runs a k pos s cs res) ->
  forall fuel k pos s cs res,
    star_loop (m a) k fuel pos s cs = Some res ->
    runs (Star a) k pos s cs res.
Proof.
  intros IHa. induction fuel as [|n IH]; intros k pos s cs res; cbn [star_loop].
  - intros H. exists [], s, []. rewrite Nat.add_0_r.
    repeat split; [constructor | intros ? ? [] | exact H].
  - destruct (m a _ pos s cs) as [r0|] eqn:E.
    + intros H; inversion H; subst r0; clear H.
      apply IHa in E. destruct E as (x & s' & new & Hs & Hx & Hg & Hk).
      destruct (length s' <? length s); [|discriminate].
      apply IH in Hk. destruct Hk as (y & s'' & new2 & Hs' & Hy & Hg2 & Hk).
      exists (x ++ y), s'', (new2 ++ new).
      split; [subst; apply app_assoc|].
      split; [constructor; assumption|].
      split.
      * intros i v Hin. apply in_app_or in Hin. cbn [groupsOf].
        destruct Hin; eauto.
      * rewrite length_app, Nat.add_assoc, <- app_assoc. exact Hk.
    + intros H. exists [], s, []. rewrite Nat.add_0_r.
      repeat split; [constructor | intros ? ? [] | exact H].
Qed.

(** The matcher is sound for the language of the pattern. *)
Lemma m_sound r : forall k pos s cs res,
  m r k pos s cs = Some res -> runs r k pos s cs res.
Proof.
  induction r as [|p| | |a IHa b IHb|a IHa|n a IHa];
    intros k pos s cs res; cbn [m].
  - intros H. exists [], s, []. rewrite Nat.add_0_r.
    repeat split; [constructor | intros ? ? [] | exact H].
  - destruct s as [|c s]; [discriminate|].
    destruct (p c) eqn:Ec; [|discriminate].
    intros H. exists [c], s, [].
    replace (pos + length [c]) with (S pos) by (simpl; lia).
    repeat split; [constructor; exact Ec | intros ? ? [] | exact H].
  - destruct (Nat.eqb pos 0); [|discriminate].
    intros H. exists [], s, []. rewrite Nat.add_0_r.
    repeat split; [constructor | intros ? ? [] | exact H].
  - destruct s; [|discriminate].
    intros H. exists [], [], []. rewrite Nat.add_0_r.
    repeat split; [constructor | intros ? ? [] | exact H].
  - intros H. apply IHa in H.
    destruct H as (x & s' & new & Hs & Hx & Hg & Hk).
    apply IHb in Hk. destruct Hk as (y & s'' & new2 & Hs' & Hy & Hg2 & Hk).
    exists (x ++ y), s'', (new2 ++ new).
    split; [subst; apply app_assoc|].
    split; [constructor; assumption|].
    split.
    + intros i v Hin. apply in_app_or in Hin. cbn [groupsOf].
      apply in_or_app. destruct Hin; eauto.
    + rewrite length_app, Nat.add_assoc, <- app_assoc. exact Hk.
  - apply star_loop_sound. exact IHa.
  - intros H. apply IHa in H.
    destruct H as (x & s' & new & Hs & Hx & Hg & Hk).
    exists x, s', ((n, x) :: new).
    split; [exact Hs|]. split; [constructor; exact Hx|].
    split.
    + intros i v [Hin|Hin]; [inversion Hin; left; reflexivity|].
      right. eauto.
    + replace (pos + length x - pos) with (length x) in Hk by lia.
      subst s. rewrite firstn_prefix in Hk by reflexivity. exact Hk.
Qed.

End Soundness.

(** ** The bound of the iteration *)

Section Fuel.

Lemma star_loop_ext (body : K -> K) :
  (forall k1 k2, (forall pos s cs, k1 pos s cs = k2 pos s cs) ->
                 forall pos s cs, body k1 pos s cs = body k2 pos s cs) ->
  forall fuel k1 k2, (forall pos s cs, k1 pos s cs = k2 pos s cs) ->
  forall pos s cs, star_loop body k1 fuel pos s cs
                   = star_loop body k2 fuel pos s cs.
Proof.
  intros Hbody. induction fuel as [|n IH]; intros k1 k2 Hk pos s cs;
    cbn [star_loop].
  - apply Hk.
  - rewrite (Hbody _ (fun pos' s' cs' =>
                        if length s' <? length s
                        then star_loop body k2 n pos' s' cs' else None)).
    + rewrite Hk. reflexivity.
    + intros pos' s' cs'. destruct (length s' <? length s); [|reflexivity].
      apply IH, Hk.
Qed.

(** The matcher sees its continuation only through its answers. *)
Lemma m_ext r : forall k1 k2,
  (forall pos s cs, k1 pos s cs = k2 pos s cs) ->
  forall pos s cs, m r k1 pos s cs = m r k2 pos s cs.
Proof.
  induction r as [|p| | |a IHa b IHb|a IHa|n a IHa];
    intros k1 k2 Hk pos s cs; cbn [m].
  - apply Hk.
  - destruct s as [|c s]; [reflexivity|]. destruct (p c); [apply Hk|reflexivity].
  - destruct (Nat.eqb pos 0); [apply Hk|reflexivity].
  - destruct s; [apply Hk|reflexivity].
  - apply IHa. intros pos' s' cs'. apply IHb, Hk.
  - apply star_loop_ext; [exact IHa | exact Hk].
  - apply IHa. intros pos' s' cs'. apply Hk.
Qed.

Lemma m_none r pos s cs : m r (fun _ _ _ => None) pos s cs = None.
Proof.
  destruct (m r (fun _ _ _ => None) pos s cs) as [res|] eqn:E; [|reflexivity].
  apply m_sound in E. destruct E as (x & s' & new & _ & _ & _ & H).
  discriminate.
Qed.

(** The bound of [star_loop] is never what ends the iteration: any bound
    from the length of the input on gives the same answer. *)
Lemma star_loop_fuel a : forall n1 n2 k pos s cs,
  length s <= n1 -> length s <= n2 ->
  star_loop (m a) k n1 pos s cs = star_loop (m a) k n2 pos s cs.
Proof.
  assert (Hnil : forall n k pos cs,
             star_loop (m a) k n pos [] cs = k pos [] cs).
  { intros [|n] k pos cs; cbn [star_loop]; [reflexivity|].
    rewrite (m_ext a _ (fun _ _ _ => None)) by reflexivity.
    rewrite m_none. reflexivity. }
  induction n1 as [|n1 IH]; intros n2 k pos s cs H1 H2.
  - destruct s; [|simpl in H1; lia]. rewrite !Hnil. reflexivity.
  - destruct n2 as [|n2].
    + destruct s; [|simpl in H2; lia]. rewrite !Hnil. reflexivity.
    + cbn [star_loop].
      rewrite (m_ext a _ (fun pos' s' cs' =>
                            if length s' <? length s
                            then star_loop (m a) k n2 pos' s' cs' else None)).
      * reflexivity.
      * intros pos' s' cs'.
        destruct (Nat.ltb_spec (length s') (length s)); [|reflexivity].
        apply IH; lia.
Qed.

(** Greedy iteration without the bound: one more round first, each round
    consuming something, then the rest of the pattern. *)
Lemma m_star_unfold a k pos s cs :
  m (Star a) k pos s cs =
  match m a (fun pos' s' cs' =>
               if length s' <? length s
               then m (Star a) k pos' s' cs' else None) pos s cs with
  | Some r => Some r
  | None => k pos s cs
  end.
Proof.
  cbn [m]. rewrite (star_loop_fuel a (length s) (S (length s))) by lia.
  cbn [star_loop].
  rewrite (m_ext a _ (fun pos' s' cs' =>
                        if length s' <? length s
                        then star_loop (m a) k (length s') pos' s' cs'
                        else None)).
  - reflexivity.
  - intros pos' s' cs'.
    destruct (Nat.ltb_spec (length s') (length s)); [|reflexivity].
    apply star_loop_fuel; lia.
Qed.

End Fuel.

(** ** Records of declaration lines *)

Section Declarations.

Lemma lang_star_class p y : lang (Star (Class p)) y -> all p y.
Proof.
  intros H. remember (Star (Class p)) as r eqn:Er.
  induction H as [| | | | | |a x y Hx _ Hy IH|]; try discriminate.
  - constructor.
  - inversion Er; subst a. inversion Hx; subst.
    constructor; [assumption | apply IH; reflexivity].
Qed.

Lemma lang_plus_class p x :
  lang (Plus (Class p)) x -> exists c y, x = c :: y /\ all p (c :: y).
Proof.
  intros H. inversion H as [| | | |a b u v Hu Hv| | |]; subst.
  inversion Hu; subst. apply lang_star_class in Hv.
  exists c, v. split; [reflexivity | constructor; assumption].
Qed.

Lemma lookup_skip n new rest :
  (forall i v, In (i, v) new -> i <> n) ->
  lookup n (new ++ rest) = lookup n rest.
Proof.
  induction new as [|[i v] new IH]; intros H; [reflexivity|].
  cbn [app lookup].
  destruct (Nat.eqb_spec i n) as [->|_].
  - exfalso. apply (H n v); [left; reflexivity | reflexivity].
  - apply IH. intros j w Hin. apply (H j w). right; exact Hin.
Qed.

Lemma m_bol0 k s cs : m Bol k 0 s cs = k 0 s cs.
Proof. reflexivity. Qed.

(** Group 1 of a declaration line is a string of the head pattern. *)
Lemma decl_group1 line res :
  exec re_decl line = Some res -> lang declHead (group 1 res).
Proof.
  change re_decl with (Bol ;; Group 1 declHead ;; declTail).
  rewrite exec_bol. unfold anchored.
  rewrite m_group, m_seq, m_bol0, m_seq, m_group.
  intros H. apply m_sound in H.
  destruct H as (x & s' & new & Hs & Hx & Hg & Hk).
  assert (new = []) by (destruct new as [|[n v] new]; [reflexivity|];
                        destruct (Hg n v (or_introl eq_refl))).
  subst new. cbn [app] in Hk.
  apply m_sound in Hk.
  destruct Hk as (y & s'' & new2 & Hs' & Hy & Hg2 & Hk).
  unfold accept in Hk. inversion Hk; subst res; clear Hk.
  unfold group. cbn [snd lookup Nat.eqb].
  rewrite lookup_skip.
  - cbn [lookup Nat.eqb]. rewrite Nat.sub_0_r.
    subst line. rewrite firstn_prefix by reflexivity. exact Hx.
  - intros i v Hin ->. apply Hg2 in Hin. cbn in Hin.
    destruct Hin as [Hin|[Hin|[]]]; discriminate.
Qed.

Lemma indexOf_after_run p a c rest :
  all p a -> p c = false ->
  indexOf (a ++ c :: rest) [c] = Some (length a).
Proof.
  intros Ha Hc. induction Ha as [|x a Hx _ IH]; rewrite indexOf_unfold.
  - cbn [app startsWith]. rewrite N.eqb_refl. reflexivity.
  - cbn [app startsWith].
    destruct (N.eqb_spec c x) as [->|_]; [congruence|].
    cbn [andb]. rewrite IH. reflexivity.
Qed.

Lemma join_split_not_nil s sep :
  s <> [] -> sep <> [] -> join (split s sep) sep <> [].
Proof.
  intros Hs Hsep. rewrite split_eq by assumption.
  destruct (indexOf s sep) as [j|].
  - pose proof (split_not_nil (skipn (j + length sep) s) sep) as Hn.
    destruct (split (skipn (j + length sep) s) sep) as [|q l]; [congruence|].
    cbn [join]. intros H. apply app_eq_nil in H. destruct H as [_ H].
    apply app_eq_nil in H. destruct H as [H _]. congruence.
  - exact Hs.
Qed.

Lemma lang_seq_inv a b x :
  lang (Seq a b) x -> exists u v, x = u ++ v /\ lang a u /\ lang b v.
Proof. intros H. inversion H; subst. eauto. Qed.

Lemma lang_class_inv p x : lang (Class p) x -> exists c, x = [c] /\ p c = true.
Proof. intros H. inversion H; subst. eauto. Qed.

(** Every record read from a line has an identifier for a name and at
    least one argument type. *)
Lemma parseLine_declared line fn : parseLine line = Some fn -> declared fn.
Proof.
  unfold parseLine.
  destruct (exec re_decl line) as [mt|] eqn:E; [|discriminate].
  intros H; inversion H; subst fn; clear H.
  apply decl_group1 in E. unfold declHead, W in E.
  apply lang_seq_inv in E. destruct E as (a & t1 & Hg & Ha & E).
  apply lang_seq_inv in E. destruct E as (colon & t2 & -> & Hc & E).
  apply lang_seq_inv in E. destruct E as (b & z & -> & Hb & _).
  apply lang_class_inv in Hc. destruct Hc as (c & -> & Hc).
  apply N.eqb_eq in Hc. subst c.
  apply lang_plus_class in Ha. destruct Ha as (c1 & a' & -> & Ha).
  apply lang_plus_class in Hb. destruct Hb as (c2 & b' & -> & Hb).
  unfold declared. cbn [name argType]. rewrite Hg.
  assert (Hsplit : split ((c1 :: a') ++ [ch ":"] ++ (c2 :: b') ++ z) (lit ":")
                   = (c1 :: a') :: split ((c2 :: b') ++ z) (lit ":")).
  { rewrite split_eq by discriminate.
    change (lit ":") with [ch ":"].
    change ([ch ":"] ++ (c2 :: b') ++ z) with (ch ":" :: (c2 :: b') ++ z).
    rewrite (indexOf_after_run isWord (c1 :: a') (ch ":") _ Ha eq_refl).
    rewrite firstn_prefix by reflexivity.
    change ((c1 :: a') ++ ch ":" :: (c2 :: b') ++ z)
      with ((c1 :: a') ++ [ch ":"] ++ (c2 :: b') ++ z).
    replace (length (c1 :: a') + length [ch ":"])
      with (length ((c1 :: a') ++ [ch ":"]))
      by (rewrite length_app; reflexivity).
    rewrite app_assoc, skipn_app, skipn_all, Nat.sub_diag. reflexivity. }
  rewrite Hsplit. cbn [hd tl]. split.
  - split; [discriminate | exact Ha].
  - apply join_split_not_nil; discriminate.
Qed.

Lemma scanLines_declared lines : forall functions,
  Forall declared functions -> Forall declared (scanLines lines functions).
Proof.
  induction lines as [|line lines IH]; intros functions Hf; cbn [scanLines].
  - exact Hf.
  - destruct (parseLine line) as [fn|] eqn:E; [|apply IH, Hf].
    apply IH. apply Forall_app. split; [exact Hf|].
    constructor; [apply (parseLine_declared line), E | constructor].
Qed.

Lemma set_declared lib funcs reg :
  Forall declared funcs -> registryDeclared reg ->
  registryDeclared (JsMap.set lib funcs reg).
Proof.
  intros Hf Hr lib' funcs'.
  destruct (str_eqb lib lib') eqn:E.
  - apply str_eqb_eq in E. subst lib'. rewrite get_set_same.
    intros H; inversion H; subst; exact Hf.
  - apply str_eqb_neq in E. rewrite get_set_other by exact E. apply Hr.
Qed.

Lemma loadLoop_declared h dir files : forall reg,
  registryDeclared reg -> registryDeclared (fst (loadLoop h dir files reg)).
Proof.
  induction files as [|file files IH]; intros reg Hr; [exact Hr|].
  rewrite loadLoop_cons.
  destruct (endsWith file mapExt); cbn [negb]; [|apply IH, Hr].
  destruct (readFileSync h (path_join h dir file)) as [content|];
    [|exact Hr].
  destruct (funcSectionOf content) as [sec|]; [|apply IH, Hr].
  destruct (truthy sec); cbn [negb]; [|apply IH, Hr].
  apply IH, set_declared; [|exact Hr].
  apply scanLines_declared. constructor.
Qed.

(** Whatever [reload] leaves in the registry was read off declaration
    lines. *)
Lemma loadMapFiles_declared h reg :
  registryDeclared (fst (loadMapFiles h reg)).
Proof.
  assert (He : registryDeclared []) by (intros lib funcs H; discriminate).
  unfold loadMapFiles. cbv zeta. cbn [JsMap.clear].
  destruct (getMapDir h) as [dir|]; [|exact He].
  destruct (negb (truthy dir) || negb (existsSync h dir)); [exact He|].
  destruct (readdirSync h dir) as [files|]; [|exact He].
  apply loadLoop_declared, He.
Qed.

Lemma argsOf_declared fn : declared fn -> argsOf fn <> [].
Proof.
  intros [_ Ha]. unfold argsOf.
  apply truthy_true in Ha. rewrite Ha.
  pose proof (split_not_nil (argType fn) (lit ",")) as Hs.
  destruct (split (argType fn) (lit ",")); [congruence | discriminate].
Qed.

End Declarations.

(** ** Reload: failures, replacement, stale entries *)

Section ReloadTheorems.

Lemma loadLoop_fails_at h dir file rest reg :
  endsWith file mapExt = true ->
  readFileSync h (path_join h dir file) = None ->
  loadLoop h dir (file :: rest) reg = (reg, Threw).
Proof.
  intros He Hr. rewrite loadLoop_cons, He, Hr. reflexivity.
Qed.

Lemma not_registered h reg dir files file content :
  descriptorDir h dir files ->
  endsWith file mapExt = true ->
  readFileSync h (path_join h dir file) = Some content ->
  funcSectionOf content = None \/ funcSectionOf content = Some [] ->
  JsMap.get (basename file mapExt) (fst (loadMapFiles h reg)) = None.
Proof.
  intros Hd He Hr Hs. rewrite (loadMapFiles_dir h dir files reg Hd).
  destruct (JsMap.get _ (fst (loadLoop h dir files []))) eqn:E;
    [|reflexivity].
  exfalso.
  destruct (loadLoop_key_origin h dir files [] (basename file mapExt))
    as [H0|(f' & funcs & _ & He' & Hl' & c' & s' & Hr' & Hs' & Hne & _)].
  - congruence.
  - simpl in H0. congruence.
  - assert (f' = file)
      by (apply (basename_inj f' file mapExt); auto).
    subst f'. rewrite Hr in Hr'. inversion Hr'; subst c'.
    destruct Hs as [Hs|Hs]; rewrite Hs in Hs'; [discriminate|].
    inversion Hs'; subst. congruence.
Qed.

End ReloadTheorems.

(** C1 (amended).  A descriptor file that cannot be read ends [reload]
    with the exception: the registry is left with what the entries listed
    before that file installed, nothing of the entries after it. *)
Theorem reload_read_failure_propagates
  (h : Host) (reg : Registry) (dir : jsstring)
  (before after : list jsstring) (file : jsstring) :
  descriptorDir h dir (before ++ file :: after) ->
  (forall f, In f before -> endsWith f mapExt = true ->
             readFileSync h (path_join h dir f) <> None) ->
  endsWith file mapExt = true ->
  readFileSync h (path_join h dir file) = None ->
  exists reg',
    loadMapFiles h reg = (reg', Threw) /\
    (forall lib, JsMap.get lib reg' <> None ->
       exists f funcs, In f before /\ registers h dir f lib funcs) /\
    (forall f lib funcs, In f before -> registers h dir f lib funcs ->
       JsMap.get lib reg' = Some funcs).
Proof.
  intros Hd Hread He Hr.
  rewrite (loadMapFiles_dir h dir _ reg Hd).
  pose proof (loadLoop_readable h dir before [] Hread) as Hret.
  exists (fst (loadLoop h dir before [])).
  split; [|split].
  - destruct (loadLoop h dir before []) as [r o] eqn:E. simpl in Hret.
    subst o. rewrite (loadLoop_app_returned h dir before _ [] r E).
    apply loadLoop_fails_at; assumption.
  - intros lib Hget.
    destruct (loadLoop_key_origin h dir before [] lib Hget) as [H0|H0];
      [simpl in H0; congruence | exact H0].
  - intros f lib funcs Hin Hreg.
    apply (loadLoop_installs h dir before [] f lib funcs Hret Hin Hreg).
Qed.

Lemma reload_read_failure_propagates_witness :
  exists reg',
    loadMapFiles brokenHost [] = (reg', Threw) /\
    (forall lib, JsMap.get lib reg' <> None ->
       exists f funcs, In f [lit "mathlib.map"] /\
                       registers brokenHost projDir f lib funcs) /\
    (forall f lib funcs, In f [lit "mathlib.map"] ->
       registers brokenHost projDir f lib funcs ->
       JsMap.get lib reg' = Some funcs).
Proof.
  apply (reload_read_failure_propagates brokenHost [] projDir
           [lit "mathlib.map"] [lit "strlib.map"] (lit "bad.map")).
  - repeat split; try reflexivity. discriminate.
  - intros f [<-|[]] _. vm_compute. discriminate.
  - vm_compute. reflexivity.
  - vm_compute. reflexivity.
Defined.

(** C1, as stated, fails: the unreadable second file makes the call
    throw, and the readable third file is never installed. *)
Lemma reload_read_failure_counterexample :
  snd (loadMapFiles brokenHost []) = Threw /\
  readFileSync brokenHost (path_join brokenHost projDir (lit "strlib.map"))
    = Some strlibText /\
  parseSection (lit "concat:str,str = strconcat > str") = [concatRecord] /\
  JsMap.get (lit "strlib") (fst (loadMapFiles brokenHost [])) = None.
Proof. vm_compute. repeat split. Qed.

(** C2 (amended).  [reload] leaves a registry that depends on the host
    alone, never on the registry it found; without a project root or a
    descriptor directory it leaves the empty registry. *)
Theorem reload_replaces_or_empties (h : Host) (reg : Registry) :
  loadMapFiles h reg = loadMapFiles h [] /\
  (dirAbsent h -> loadMapFiles h reg = ([], Returned)).
Proof.
  split; [apply loadMapFiles_fresh | apply loadMapFiles_absent].
Qed.

Lemma reload_replaces_or_empties_witness :
  loadMapFiles noDirHost sampleRegistry = ([], Returned).
Proof.
  apply (proj2 (reload_replaces_or_empties noDirHost sampleRegistry)).
  vm_compute. reflexivity.
Defined.

(** C2, as stated, fails: with the directory absent a populated registry
    does not keep its contents. *)
Lemma reload_untouched_counterexample :
  dirAbsent noDirHost /\
  JsMap.get (lit "mathlib") sampleRegistry <> None /\
  JsMap.get (lit "mathlib") (fst (loadMapFiles noDirHost sampleRegistry))
    = None.
Proof.
  split; [vm_compute; reflexivity|].
  split; [vm_compute; discriminate | vm_compute; reflexivity].
Qed.

(** C7.  A second [reload] on the same host leaves the same registry, keys
    and records in the same order, and ends the same way. *)
Theorem reload_idempotent (h : Host) (reg : Registry) :
  loadMapFiles h (fst (loadMapFiles h reg)) = loadMapFiles h reg.
Proof. apply loadMapFiles_fresh. Qed.

(** C6 (amended).  After a [reload] that returned, the keys of the
    registry are exactly the base names of the [.map] entries of the
    descriptor directory whose function section is not empty, each bound
    to the records of that section; nothing else is a key.  The function
    section of a file is the text between its first marker and the next
    marker, or the end of the text when no marker follows; a file
    without marker has none. *)
Theorem reload_registry_keys (h : Host) (reg : Registry) (lib : jsstring) :
  snd (loadMapFiles h reg) = Returned ->
  (In lib (JsMap.keys (fst (loadMapFiles h reg))) <->
   exists dir files file funcs,
     descriptorDir h dir files /\ In file files /\
     registers h dir file lib funcs) /\
  (forall dir files file funcs,
     descriptorDir h dir files -> In file files ->
     registers h dir file lib funcs ->
     JsMap.get lib (fst (loadMapFiles h reg)) = Some funcs) /\
  (forall content,
     funcSectionOf content =
     match indexOf content marker with
     | None => None
     | Some i =>
       let after := skipn (i + length marker) content in
       Some (match indexOf after marker with
             | None => after
             | Some j => firstn j after
             end)
     end).
Proof.
  intros Hret.
  assert (Hval : forall dir files file funcs,
            descriptorDir h dir files -> In file files ->
            registers h dir file lib funcs ->
            JsMap.get lib (fst (loadMapFiles h reg)) = Some funcs).
  { intros dir files file funcs Hd Hin Hreg.
    rewrite (loadMapFiles_dir h dir files reg Hd) in *.
    apply (loadLoop_installs h dir files [] file lib funcs Hret Hin Hreg). }
  split; [|split; [exact Hval | exact funcSectionOf_eq]].
  rewrite <- get_keys. split.
  - intros Hget.
    destruct (loadMapFiles_cases h reg) as [(dir & files & Hd)|Hnil].
    + rewrite (loadMapFiles_dir h dir files reg Hd) in Hget.
      destruct (loadLoop_key_origin h dir files [] lib Hget)
        as [H0|(file & funcs & Hin & Hreg)];
        [simpl in H0; congruence|].
      exists dir, files, file, funcs. auto.
    + rewrite Hnil in Hget. simpl in Hget. congruence.
  - intros (dir & files & file & funcs & Hd & Hin & Hreg).
    rewrite (Hval dir files file funcs Hd Hin Hreg). discriminate.
Qed.

Lemma reload_registry_keys_witness :
  (In (lit "mathlib") (JsMap.keys (fst (loadMapFiles sampleHost []))) <->
   exists dir files file funcs,
     descriptorDir sampleHost dir files /\ In file files /\
     registers sampleHost dir file (lit "mathlib") funcs) /\
  (forall dir files file funcs,
     descriptorDir sampleHost dir files -> In file files ->
     registers sampleHost dir file (lit "mathlib") funcs ->
     JsMap.get (lit "mathlib") (fst (loadMapFiles sampleHost []))
       = Some funcs) /\
  funcSectionOf twoMarkerText
  = Some (newline ++ lit "sin:float = c_sin > float" ++ newline).
Proof.
  destruct (reload_registry_keys sampleHost [] (lit "mathlib"))
    as (Hkeys & Hval & Hsec).
  - vm_compute. reflexivity.
  - split; [exact Hkeys|]. split; [exact Hval|].
    rewrite Hsec. vm_compute. reflexivity.
Defined.

(** C6, as stated, fails: a [.map] file without a function section is
    present in the directory and its library name is not a key. *)
Lemma reload_registry_keys_counterexample :
  readdirSync notesHost projDir = Some [lit "notes.map"] /\
  endsWith (lit "notes.map") mapExt = true /\
  basename (lit "notes.map") mapExt = lit "notes" /\
  loadMapFiles notesHost [] = ([], Returned) /\
  ~ In (lit "notes") (JsMap.keys (fst (loadMapFiles notesHost []))).
Proof.
  repeat split; try (vm_compute; reflexivity).
  vm_compute. tauto.
Qed.

(** ** The function section of a descriptor *)

Section Parsing.

Lemma scanLines_acc lines : forall functions,
  scanLines lines functions = functions ++ flat_map declOf lines.
Proof.
  induction lines as [|line lines IH]; intros functions; simpl.
  - symmetry; apply app_nil_r.
  - unfold declOf at 1. destruct (parseLine line) as [fn|].
    + rewrite IH, <- app_assoc. reflexivity.
    + apply IH.
Qed.

Lemma noTextAfterMarker_section content :
  noTextAfterMarker content ->
  funcSectionOf content = None \/ funcSectionOf content = Some [].
Proof.
  rewrite funcSectionOf_eq. intros [Ha|(i & Hf & Hs)].
  - left. apply indexOf_absent in Ha. rewrite Ha. reflexivity.
  - right. rewrite (firstAt_indexOf _ _ _ Hf). cbv zeta. rewrite Hs.
    reflexivity.
Qed.

Lemma section_between content i j :
  firstAt content marker i ->
  firstAt (skipn (i + length marker) content) marker j ->
  funcSectionOf content =
  Some (firstn j (skipn (i + length marker) content)).
Proof.
  intros Hi Hj. rewrite funcSectionOf_eq.
  rewrite (firstAt_indexOf _ _ _ Hi). cbv zeta.
  rewrite (firstAt_indexOf _ _ _ Hj). reflexivity.
Qed.

End Parsing.

(** C10.  A descriptor with no marker, or with nothing after its first
    marker, leaves no entry in the registry and no library-name
    completion; and when the marker occurs again, the function section is
    the text between the first occurrence and the next, which alone is
    scanned for declarations. *)
Theorem empty_section_not_registered
  (h : Host) (reg : Registry) (dir : jsstring) (files : list jsstring)
  (file content : jsstring) :
  descriptorDir h dir files ->
  In file files ->
  endsWith file mapExt = true ->
  readFileSync h (path_join h dir file) = Some content ->
  (noTextAfterMarker content ->
   JsMap.get (basename file mapExt) (fst (loadMapFiles h reg)) = None /\
   forall line character,
     ~ In (libraryItem (basename file mapExt))
          (provideLibraryCompletionItems (fst (loadMapFiles h reg))
             line character)) /\
  (forall i j,
     firstAt content marker i ->
     firstAt (skipn (i + length marker) content) marker j ->
     funcSectionOf content
       = Some (firstn j (skipn (i + length marker) content)) /\
     (j <> 0 -> snd (loadMapFiles h reg) = Returned ->
      JsMap.get (basename file mapExt) (fst (loadMapFiles h reg))
        = Some (parseSection
                  (firstn j (skipn (i + length marker) content))))).
Proof.
  intros Hd Hin He Hr. split.
  - intros Hno.
    pose proof (not_registered h reg dir files file content Hd He Hr
                  (noTextAfterMarker_section content Hno)) as Hget.
    split; [exact Hget|].
    intros line character. unfold provideLibraryCompletionItems.
    destruct (test re_using line); [|simpl; tauto].
    rewrite in_map_iff. intros (k & Hk & Hink).
    inversion Hk; subst k.
    apply get_keys in Hink. congruence.
  - intros i j Hi Hj.
    pose proof (section_between content i j Hi Hj) as Hsec.
    split; [exact Hsec|].
    intros Hj0. rewrite (loadMapFiles_dir h dir files reg Hd). intros Hret.
    apply (loadLoop_installs h dir files [] file); [assumption..|].
    split; [assumption|]. split; [reflexivity|].
    exists content, (firstn j (skipn (i + length marker) content)).
    repeat split; try assumption.
    intros Hnil. apply (f_equal (@length char)) in Hnil.
    rewrite length_firstn in Hnil. cbn [length] in Hnil.
    pose proof (indexOf_bound _ _ _ (firstAt_indexOf _ _ _ Hj)) as Hb.
    lia.
Qed.

Lemma empty_section_not_registered_witness :
  JsMap.get (lit "notes") (fst (loadMapFiles notesHost [])) = None.
Proof.
  apply (proj1 (empty_section_not_registered notesHost [] projDir
                  [lit "notes.map"] (lit "notes.map")
                  (lit "functions to be declared later")
                  ltac:(repeat split; try reflexivity; discriminate)
                  ltac:(simpl; auto)
                  ltac:(vm_compute; reflexivity)
                  ltac:(vm_compute; reflexivity))).
  left. apply indexOf_absent. vm_compute. reflexivity.
Defined.

(** With two markers, the declarations after the second are not read. *)
Lemma two_markers_example :
  funcSectionOf twoMarkerText
    = Some (newline ++ lit "sin:float = c_sin > float" ++ newline) /\
  option_map (fun sec => map name (parseSection sec))
             (funcSectionOf twoMarkerText) = Some [lit "sin"].
Proof. vm_compute. split; reflexivity. Qed.

(** C8.  The sample text yields the one record of its declaration line;
    in general the records of a section are those of its matching lines,
    in the order of the lines, and a line that does not match adds
    nothing. *)
Theorem parse_function_section :
  (funcSectionOf strlibText
     = Some (newline ++ lit "concat:str,str = strconcat > str" ++ newline) /\
   parseSection (newline ++ lit "concat:str,str = strconcat > str" ++ newline)
     = [concatRecord] /\
   argsOf concatRecord = [lit "str"; lit "str"]) /\
  (forall funcSection,
     parseSection funcSection = flat_map declOf (split funcSection newline)) /\
  (forall before line after,
     parseLine line = None ->
     scanLines (before ++ line :: after) [] = scanLines (before ++ after) []).
Proof.
  split; [|split].
  - vm_compute. repeat split.
  - intros funcSection. unfold parseSection. apply scanLines_acc.
  - intros before line after Hnone.
    rewrite !scanLines_acc, !flat_map_app. cbn [flat_map].
    unfold declOf at 2. rewrite Hnone. reflexivity.
Qed.

(** ** The providers *)

(** C3 (amended).  The call site of signature help is the first occurrence,
    from the left, of the shape identifier, dot, identifier, opening
    parenthesis in the text before the cursor; its two identifiers are the
    library and the function that the answer reports. *)
Theorem callSite_first_occurrence (line : jsstring) (character : nat) :
  match callSite (slice0 line character) with
  | Some (lib, fn) =>
    exists pre post : jsstring,
      slice0 line character = pre ++ lib ++ lit "." ++ fn ++ lit "(" ++ post /\
      identifier lib /\ identifier fn /\
      forall k, k < length pre -> ~ callShapeAt (slice0 line character) k
  | None => forall k, ~ callShapeAt (slice0 line character) k
  end /\
  (forall reg help,
     provideSignatureHelp reg line character = Some help ->
     exists lib fn sig,
       callSite (slice0 line character) = Some (lib, fn) /\
       signatures help = [sig] /\
       sig_documentation sig = lit "From library: " ++ lib /\
       startsWith (sig_label sig) (fn ++ lit "(") = true).
Proof.
  split.
  - destruct (callSite (slice0 line character)) as [[lib fn]|] eqn:E.
    + apply callSite_some, E.
    + apply callSite_none, E.
  - intros reg help. unfold provideSignatureHelp. cbv zeta.
    destruct (callSite (slice0 line character)) as [[lib fn]|];
      [|discriminate].
    destruct (JsMap.get lib reg) as [funcs|]; [|discriminate].
    destruct (find _ funcs) as [f|] eqn:Ef; [|discriminate].
    intros H; inversion H; subst help; clear H.
    apply find_some in Ef. destruct Ef as [_ Hn].
    apply str_eqb_eq in Hn.
    eexists lib, fn, _. repeat split.
    cbn [sig_label]. rewrite Hn.
    apply startsWith_spec. eexists. rewrite <- app_assoc. reflexivity.
Qed.

Lemma callSite_first_occurrence_witness :
  exists lib fn sig,
    callSite (slice0 (lit "a.f(b.g(") 8) = Some (lib, fn) /\
    signatures
      {| signatures :=
           [{| sig_label := lit "f(int) -> int";
               sig_documentation := lit "From library: a";
               parameters := [lit "int"] |}];
         activeSignature := 0;
         activeParameter := 0 |} = [sig] /\
    sig_documentation sig = lit "From library: " ++ lib /\
    startsWith (sig_label sig) (fn ++ lit "(") = true.
Proof.
  apply (proj2 (callSite_first_occurrence (lit "a.f(b.g(") 8) nestedRegistry).
  vm_compute. reflexivity.
Defined.

(** C3, as stated, fails: with two call shapes before the cursor the
    context is the first, not the last. *)
Lemma callSite_last_counterexample :
  callSite (slice0 (lit "a.f(b.g(") 8) = Some (lit "a", lit "f") /\
  callSite (slice0 (lit "a.f(b.g(") 8) <> Some (lit "b", lit "g") /\
  option_map (fun help => map sig_documentation (signatures help))
    (provideSignatureHelp nestedRegistry (lit "a.f(b.g(") 8)
    = Some [lit "From library: a"].
Proof.
  split; [vm_compute; reflexivity|].
  split; [vm_compute; discriminate | vm_compute; reflexivity].
Qed.

(** C4 (amended).  On a registry left by [reload], the active parameter
    is the number of commas in the whole text before the cursor, those
    before the call included, capped at the last argument position; it is
    an argument position, every registered function having at least one
    argument type. *)
Theorem activeParameter_counts_commas
  (h : Host) (reg0 : Registry) (line : jsstring) (character : nat)
  (help : SignatureHelp) :
  provideSignatureHelp (fst (loadMapFiles h reg0)) line character = Some help ->
  exists sig,
    signatures help = [sig] /\
    activeParameter help
      = Z.min (Z.of_nat (countChar (ch ",") (slice0 line character)))
              (Z.of_nat (length (parameters sig)) - 1) /\
    (0 <= activeParameter help <= Z.of_nat (length (parameters sig)) - 1)%Z.
Proof.
  pose proof (loadMapFiles_declared h reg0) as Hdecl.
  unfold provideSignatureHelp. cbv zeta.
  destruct (callSite (slice0 line character)) as [[lib fn]|]; [|discriminate].
  destruct (JsMap.get lib (fst (loadMapFiles h reg0))) as [funcs|] eqn:Eg;
    [|discriminate].
  destruct (find _ funcs) as [f|] eqn:Ef; [|discriminate].
  intros H; inversion H; subst help; clear H.
  apply find_some in Ef. destruct Ef as [Hin _].
  pose proof (Hdecl lib funcs Eg) as Hall.
  rewrite Forall_forall in Hall.
  pose proof (argsOf_declared f (Hall f Hin)) as Hargs.
  eexists. split; [reflexivity|].
  cbn [parameters activeParameter]. rewrite matchAll_comma.
  split; [reflexivity|].
  destruct (argsOf f) as [|a args]; [congruence|].
  cbn [length]. lia.
Qed.

Lemma activeParameter_counts_commas_witness :
  exists help,
    provideSignatureHelp (fst (loadMapFiles sampleHost []))
      (lit "mathlib.add(1,") 14 = Some help /\
    activeParameter help = 1%Z.
Proof.
  destruct (provideSignatureHelp (fst (loadMapFiles sampleHost []))
              (lit "mathlib.add(1,") 14) as [help|] eqn:E;
    [|vm_compute in E; discriminate].
  exists help. split; [reflexivity|].
  destruct (activeParameter_counts_commas _ _ _ _ _ E)
    as (sig & Hsig & Heq & _).
  vm_compute in E. inversion E; subst help; clear E.
  cbn [signatures] in Hsig. inversion Hsig; subst sig; clear Hsig.
  rewrite Heq. reflexivity.
Defined.

(** C4, as stated, fails: a comma before the call counts, so the index is
    1 where no comma follows the parenthesis. *)
Lemma activeParameter_counterexample :
  option_map activeParameter
    (provideSignatureHelp sampleRegistry (lit "x, mathlib.add(") 15)
    = Some 1%Z /\
  commasAfterParen (slice0 (lit "x, mathlib.add(") 15) = 0 /\
  clampIndex (commasAfterParen (slice0 (lit "x, mathlib.add(") 15)) 2 = 0%Z.
Proof. vm_compute. repeat split. Qed.

(** C5 (amended).  Library names are offered exactly when the line itself,
    whatever the cursor offset, starts with optional white space, [using]
    and at least one white space, whatever follows; then every key of the
    registry is offered, in registry order, and otherwise nothing. *)
Theorem library_completion_context
  (reg : Registry) (line : jsstring) (character : nat) :
  (usingShape line ->
   provideLibraryCompletionItems reg line character
     = map libraryItem (JsMap.keys reg) /\
   map label (provideLibraryCompletionItems reg line character)
     = JsMap.keys reg) /\
  (~ usingShape line ->
   provideLibraryCompletionItems reg line character = []).
Proof.
  unfold provideLibraryCompletionItems. split.
  - intros Hu. apply using_test in Hu. rewrite Hu. split; [reflexivity|].
    rewrite map_map. cbn [label libraryItem]. apply map_id.
  - intros Hn. destruct (test re_using line) eqn:E; [|reflexivity].
    exfalso. apply Hn, using_test, E.
Qed.

Lemma library_completion_context_witness :
  map label (provideLibraryCompletionItems sampleRegistry (lit "  using  x") 3)
    = [lit "mathlib"].
Proof.
  apply (proj1 (library_completion_context sampleRegistry
                  (lit "  using  x") 3)).
  exists (lit "  "), (lit "  "), (lit "x").
  split; [reflexivity|].
  split; [repeat constructor|]. split; [repeat constructor | discriminate].
Defined.

(** C5, as stated, fails: with more than the keyword and white space
    before the cursor, or with the cursor at the start of the line,
    library names are still offered. *)
Lemma library_completion_counterexample :
  (~ usingOnly (slice0 (lit "using ma") 8) /\
   provideLibraryCompletionItems sampleRegistry (lit "using ma") 8
     = [libraryItem (lit "mathlib")]) /\
  (~ usingShape (slice0 (lit "using ma") 0) /\
   provideLibraryCompletionItems sampleRegistry (lit "using ma") 0
     = [libraryItem (lit "mathlib")]).
Proof.
  split; (split; [|vm_compute; reflexivity]).
  - intros (ws1 & ws2 & H & _ & H2 & Hne).
    destruct (exists_last Hne) as (w & c & ->).
    apply Forall_app in H2. destruct H2 as [_ Hc].
    inversion Hc as [|x l Hx _]; subst.
    apply (f_equal (@rev char)) in H.
    rewrite !rev_app_distr in H. cbn [rev app] in H.
    vm_compute in H. inversion H; subst c.
    vm_compute in Hx. discriminate.
  - intros (ws1 & ws2 & rest & H & _).
    apply (f_equal (@length char)) in H.
    rewrite !length_app in H. simpl in H. lia.
Qed.

(** C9.  On a line that ends with [lib.prefix], member completion
    returns one item for each record of the library [lib] whose name has
    [prefix] as an initial segment, in registry order, and no other; it
    returns nothing when the library is unknown. *)
Theorem member_completion_filter
  (reg : Registry) (pre lib prefix : jsstring) (character : nat) :
  wordBoundary pre -> identifier lib -> all isWord prefix ->
  match JsMap.get lib reg with
  | None =>
    provideMemberCompletionItems reg (pre ++ lib ++ lit "." ++ prefix)
      character = []
  | Some funcs =>
    provideMemberCompletionItems reg (pre ++ lib ++ lit "." ++ prefix)
      character
      = map (memberItem lib)
            (filter (fun fn => startsWith (name fn) prefix) funcs) /\
    forall item,
      In item (provideMemberCompletionItems reg
                 (pre ++ lib ++ lit "." ++ prefix) character) <->
      exists fn rest,
        In fn funcs /\ name fn = prefix ++ rest /\ item = memberItem lib fn
  end.
Proof.
  intros Hb Hl Hp. unfold provideMemberCompletionItems.
  rewrite (memberAccess_at pre lib prefix Hb Hl Hp).
  destruct (JsMap.get lib reg) as [funcs|]; [|reflexivity].
  split; [reflexivity|].
  intros item. rewrite in_map_iff. split.
  - intros (fn & <- & Hin). apply filter_In in Hin. destruct Hin as [Hin Hs].
    apply startsWith_spec in Hs. destruct Hs as [rest Hs].
    exists fn, rest. auto.
  - intros (fn & rest & Hin & Hn & ->). exists fn. split; [reflexivity|].
    apply filter_In. split; [assumption|].
    apply startsWith_spec. exists rest; assumption.
Qed.

Lemma member_completion_filter_witness :
  map label
    (provideMemberCompletionItems sampleRegistry
       (lit "x = " ++ lit "mathlib" ++ lit "." ++ lit "co") 14)
    = [lit "cos"; lit "cot"].
Proof.
  assert (Hb : wordBoundary (lit "x = ")).
  { intros p c Hpc. destruct p as [|a [|b [|d [|e [|g p]]]]];
      inversion Hpc; subst; try reflexivity;
      try (destruct p; discriminate). }
  assert (Hl : identifier (lit "mathlib"))
    by (split; [discriminate | repeat constructor]).
  assert (Hp : all isWord (lit "co")) by repeat constructor.
  pose proof (member_completion_filter sampleRegistry (lit "x = ")
                (lit "mathlib") (lit "co") 14 Hb Hl Hp) as H.
  change (JsMap.get (lit "mathlib") sampleRegistry)
    with (Some (parseSection
                  (newline ++ lit "add:int,int = c_add > int" ++ newline
                   ++ lit "cos:float = c_cos > float" ++ newline
                   ++ lit "cot:float = c_cot > float" ++ newline))) in H.
  destruct H as [H _]. rewrite H. vm_compute. reflexivity.
Defined.

(** ** Groups of a match *)

Section Captures.

Lemma star_loop_sound_caps a :
  (forall k pos s cs res, m a k pos s cs = Some res ->
     exists x s' new, s = x ++ s' /\ langc a x new /\
                      k (pos + length x) s' (new ++ cs) = Some res) ->
  forall fuel k pos s cs res,
    star_loop (m a) k fuel pos s cs = Some res ->
    exists x s' new, s = x ++ s' /\ langc (Star a) x new /\
                     k (pos + length x) s' (new ++ cs) = Some res.
Proof.
  intros IHa. induction fuel as [|n IH]; intros k pos s cs res; cbn [star_loop].
  - intros H. exists [], s, []. rewrite Nat.add_0_r.
    split; [reflexivity|]. split; [constructor | exact H].
  - destruct (m a _ pos s cs) as [r0|] eqn:E.
    + intros H; inversion H; subst r0; clear H.
      apply IHa in E. destruct E as (x & s' & new & Hs & Hx & Hk).
      destruct (length s' <? length s); [|discriminate].
      apply IH in Hk. destruct Hk as (y & s'' & new2 & Hs' & Hy & Hk).
      exists (x ++ y), s'', (new2 ++ new).
      split; [subst; apply app_assoc|].
      split; [constructor; assumption|].
      rewrite length_app, Nat.add_assoc, <- app_assoc. exact Hk.
    + intros H. exists [], s, []. rewrite Nat.add_0_r.
      split; [reflexivity|]. split; [constructor | exact H].
Qed.

(** A successful run consumed a string of the pattern and pushed exactly
    the groups of that string before it went on. *)
Lemma m_sound_caps r : forall k pos s cs res,
  m r k pos s cs = Some res ->
  exists x s' new, s = x ++ s' /\ langc r x new /\
                   k (pos + length x) s' (new ++ cs) = Some res.
Proof.
  induction r as [|p| | |a IHa b IHb|a IHa|n a IHa];
    intros k pos s cs res; cbn [m].
  - intros H. exists [], s, []. rewrite Nat.add_0_r.
    split; [reflexivity|]. split; [constructor | exact H].
  - destruct s as [|c s]; [discriminate|].
    destruct (p c) eqn:Ec; [|discriminate].
    intros H. exists [c], s, [].
    replace (pos + length [c]) with (S pos) by (simpl; lia).
    split; [reflexivity|]. split; [constructor; exact Ec | exact H].
  - destruct (Nat.eqb pos 0); [|discriminate].
    intros H. exists [], s, []. rewrite Nat.add_0_r.
    split; [reflexivity|]. split; [constructor | exact H].
  - destruct s; [|discriminate].
    intros H. exists [], [], []. rewrite Nat.add_0_r.
    split; [reflexivity|]. split; [constructor | exact H].
  - intros H. apply IHa in H.
    destruct H as (x & s' & new & Hs & Hx & Hk).
    apply IHb in Hk. destruct Hk as (y & s'' & new2 & Hs' & Hy & Hk).
    exists (x ++ y), s'', (new2 ++ new).
    split; [subst; apply app_assoc|].
    split; [constructor; assumption|].
    rewrite length_app, Nat.add_assoc, <- app_assoc. exact Hk.
  - apply star_loop_sound_caps. exact IHa.
  - intros H. apply IHa in H.
    destruct H as (x & s' & new & Hs & Hx & Hk).
    exists x, s', ((n, x) :: new).
    split; [exact Hs|]. split; [constructor; exact Hx|].
    replace (pos + length x - pos) with (length x) in Hk by lia.
    subst s. rewrite firstn_prefix in Hk by reflexivity. exact Hk.
Qed.

Lemma langc_lang r x c : langc r x c -> lang r x.
Proof. intros H; induction H; constructor; assumption. Qed.

Lemma langc_groups r x c :
  langc r x c -> forall n v, In (n, v) c -> In n (groupsOf r).
Proof.
  intros H; induction H; intros i v Hin; cbn [groupsOf];
    try (destruct Hin; fail).
  - apply in_app_or in Hin. apply in_or_app. destruct Hin; eauto.
  - apply in_app_or in Hin. destruct Hin; eauto.
  - destruct Hin as [Hin|Hin]; [inversion Hin; left; reflexivity|].
    right; eauto.
Qed.

Lemma langc_no_groups r x c : groupsOf r = [] -> langc r x c -> c = [].
Proof.
  intros Hg H. destruct c as [|[n v] c]; [reflexivity|].
  pose proof (langc_groups r x _ H n v (or_introl eq_refl)) as Hin.
  rewrite Hg in Hin. destruct Hin.
Qed.

Lemma langc_seq_inv a b z c :
  langc (Seq a b) z c ->
  exists x y ca cb, z = x ++ y /\ c = cb ++ ca /\ langc a x ca /\ langc b y cb.
Proof. intros H. inversion H; subst. eauto 10. Qed.

Lemma langc_group_inv n a x c :
  langc (Group n a) x c -> exists ca, c = (n, x) :: ca /\ langc a x ca.
Proof. intros H. inversion H; subst. eauto. Qed.

Lemma langc_plain r x c :
  groupsOf r = [] -> langc r x c -> c = [] /\ lang r x.
Proof.
  intros Hg H. split; [apply (langc_no_groups r x c Hg H)|].
  apply (langc_lang r x c H).
Qed.

End Captures.

(** ** What a declaration line is *)

Section DeclSound.

Ltac list_norm :=
  cbn [lit list_ascii_of_string map app];
  repeat (rewrite <- app_assoc || rewrite <- app_comm_cons);
  cbn [app].

Lemma lang_chr_inv a x : lang (Chr a) x -> x = [ch a].
Proof.
  intros H. apply lang_class_inv in H. destruct H as (c & -> & Hc).
  apply N.eqb_eq in Hc. subst c. reflexivity.
Qed.

Lemma lang_plus_identifier x : lang (Plus (Class isWord)) x -> identifier x.
Proof.
  intros H. apply lang_plus_class in H. destruct H as (c & y & -> & Ha).
  split; [discriminate | exact Ha].
Qed.

(** A match of the declaration pattern cuts the line into the head, the
    two signs with their white space, the alias and the return type, and
    its groups are the head, the alias and the return type. *)
Lemma decl_exec_parts line res :
  exec re_decl line = Some res ->
  exists x1 w1 w2 x2 w3 w4 x3 rest : jsstring,
    line = x1 ++ w1 ++ lit "=" ++ w2 ++ x2 ++ w3 ++ lit ">" ++ w4 ++ x3 ++ rest /\
    lang declHead x1 /\
    all isSpace w1 /\ all isSpace w2 /\ identifier x2 /\
    all isSpace w3 /\ all isSpace w4 /\ identifier x3 /\
    group 1 res = x1 /\ group 2 res = x2 /\ group 3 res = x3.
Proof.
  change re_decl with (Bol ;; Group 1 declHead ;; declTail).
  rewrite exec_bol. unfold anchored. intros H.
  apply m_sound_caps in H. destruct H as (x & rest & new & Hl & Hx & Hk).
  unfold accept in Hk. inversion Hk; subst res; clear Hk.
  apply langc_group_inv in Hx. destruct Hx as (c0 & -> & Hx).
  apply langc_seq_inv in Hx.
  destruct Hx as (xb & y1 & cb & cy & -> & -> & Hb & Hx).
  inversion Hb; subst; clear Hb.
  apply langc_seq_inv in Hx.
  destruct Hx as (x1 & yt & cg & ct & -> & -> & Hg & Ht).
  apply langc_group_inv in Hg. destruct Hg as (ch1 & -> & Hg).
  apply langc_plain in Hg; [|reflexivity]. destruct Hg as [-> Hhead].
  unfold declTail, Sp, W in Ht.
  apply langc_seq_inv in Ht.
  destruct Ht as (w1 & t1 & c1 & d1 & -> & -> & Hw1 & Ht).
  apply langc_plain in Hw1; [|reflexivity]. destruct Hw1 as [-> Hw1].
  apply lang_star_class in Hw1.
  apply langc_seq_inv in Ht.
  destruct Ht as (e1 & t2 & c2 & d2 & -> & -> & He1 & Ht).
  apply langc_plain in He1; [|reflexivity]. destruct He1 as [-> He1].
  apply lang_chr_inv in He1. subst e1.
  apply langc_seq_inv in Ht.
  destruct Ht as (w2 & t3 & c3 & d3 & -> & -> & Hw2 & Ht).
  apply langc_plain in Hw2; [|reflexivity]. destruct Hw2 as [-> Hw2].
  apply lang_star_class in Hw2.
  apply langc_seq_inv in Ht.
  destruct Ht as (x2 & t4 & c4 & d4 & -> & -> & Hx2 & Ht).
  apply langc_group_inv in Hx2. destruct Hx2 as (ch2 & -> & Hx2).
  apply langc_plain in Hx2; [|reflexivity]. destruct Hx2 as [-> Hx2].
  apply lang_plus_identifier in Hx2.
  apply langc_seq_inv in Ht.
  destruct Ht as (w3 & t5 & c5 & d5 & -> & -> & Hw3 & Ht).
  apply langc_plain in Hw3; [|reflexivity]. destruct Hw3 as [-> Hw3].
  apply lang_star_class in Hw3.
  apply langc_seq_inv in Ht.
  destruct Ht as (e2 & t6 & c6 & d6 & -> & -> & He2 & Ht).
  apply langc_plain in He2; [|reflexivity]. destruct He2 as [-> He2].
  apply lang_chr_inv in He2. subst e2.
  apply langc_seq_inv in Ht.
  destruct Ht as (w4 & x3 & c7 & d7 & -> & -> & Hw4 & Hx3).
  apply langc_plain in Hw4; [|reflexivity]. destruct Hw4 as [-> Hw4].
  apply lang_star_class in Hw4.
  apply langc_group_inv in Hx3. destruct Hx3 as (ch3 & -> & Hx3).
  apply langc_plain in Hx3; [|reflexivity]. destruct Hx3 as [-> Hx3].
  apply lang_plus_identifier in Hx3.
  exists x1, w1, w2, x2, w3, w4, x3, rest.
  split.
  { list_norm. reflexivity. }
  repeat (split; [assumption|]).
  unfold group. cbn [snd app lookup Nat.eqb]. auto.
Qed.

End DeclSound.

Section DeclComplete.

Lemma isWord_not_space c : isWord c = true -> isSpace c = false.
Proof.
  intros H. apply not_true_is_false. intros H2.
  unfold isWord in H. unfold isSpace in H2.
  repeat rewrite ?orb_true_iff, ?andb_true_iff, ?N.leb_le, ?N.eqb_eq in H.
  repeat rewrite ?orb_true_iff, ?andb_true_iff, ?N.leb_le, ?N.eqb_eq in H2.
  lia.
Qed.

Lemma isSpace_not_word c : isSpace c = true -> isWord c = false.
Proof.
  intros H. destruct (isWord c) eqn:E; [|reflexivity].
  apply isWord_not_space in E. congruence.
Qed.

Lemma wordStop_cons c s : isWord c = false -> wordStop (c :: s).
Proof. intros H x t E. inversion E; subst. exact H. Qed.

Lemma wordStop_nil : wordStop [].
Proof. intros x t E. discriminate. Qed.

Lemma m_plus_run p w rest k pos cs :
  w <> [] -> all p w -> (forall c s', rest = c :: s' -> p c = false) ->
  failsOn p k ->
  m (Plus (Class p)) k pos (w ++ rest) cs = k (pos + length w) rest cs.
Proof.
  intros Hne Hw Hrest Hk. rewrite m_plus_span by exact Hk.
  destruct (span_app p w rest Hw Hrest) as [-> ->].
  destruct w; [congruence | reflexivity].
Qed.

Lemma m_star_run p w rest k pos cs :
  all p w -> (forall c s', rest = c :: s' -> p c = false) ->
  failsOn p k ->
  m (Star (Class p)) k pos (w ++ rest) cs = k (pos + length w) rest cs.
Proof.
  intros Hw Hrest Hk. rewrite m_star_span by exact Hk.
  destruct (span_app p w rest Hw Hrest) as [-> ->]. reflexivity.
Qed.

Lemma failsOn_chr (p : char -> bool) a k :
  p (ch a) = false -> failsOn p (m (Chr a) k).
Proof.
  intros Ha pos c s cs Hc. rewrite m_chr.
  rewrite (class_excludes p a c Ha Hc). reflexivity.
Qed.

(** The longest run is tried first. *)
Lemma greedy_longest p k w rest : forall pos cs r,
  all p w -> (forall c s', rest = c :: s' -> p c = false) ->
  k (pos + length w) rest cs = Some r ->
  greedy p k pos (w ++ rest) cs = Some r.
Proof.
  induction w as [|c w IH]; intros pos cs r Hw Hrest Hk.
  - cbn [app length] in *. rewrite Nat.add_0_r in Hk.
    destruct rest as [|c s']; cbn [greedy]; [exact Hk|].
    rewrite (Hrest c s' eq_refl). exact Hk.
  - inversion Hw as [|? ? Hc Hw']; subst.
    cbn [app greedy]. rewrite Hc.
    rewrite (IH (S pos) cs r Hw' Hrest); [reflexivity|].
    replace (S pos + length w) with (pos + length (c :: w))
      by (cbn [length]; lia).
    exact Hk.
Qed.

Lemma m_group_plus_run n w rest k pos cs :
  identifier w -> wordStop rest -> failsOn isWord k ->
  m (Group n (Plus (Class isWord))) k pos (w ++ rest) cs
  = k (pos + length w) rest ((n, w) :: cs).
Proof.
  intros [Hne Hw] Hrest Hk. rewrite m_group.
  rewrite m_plus_run; try assumption.
  - replace (pos + length w - pos) with (length w) by lia.
    rewrite firstn_prefix by reflexivity. reflexivity.
  - intros q c s cs' Hc. apply Hk, Hc.
Qed.

Lemma m_group_plus_last n w rest k pos cs r :
  identifier w -> wordStop rest ->
  k (pos + length w) rest ((n, w) :: cs) = Some r ->
  m (Group n (Plus (Class isWord))) k pos (w ++ rest) cs = Some r.
Proof.
  intros [Hne Hw] Hrest Hk. rewrite m_group, m_plus_class.
  destruct w as [|c w]; [congruence|].
  inversion Hw as [|? ? Hc Hw']; subst.
  cbn [app]. rewrite Hc.
  apply greedy_longest; [assumption..|].
  replace (S pos + length w - pos) with (length (c :: w)) by (cbn [length]; lia).
  change (c :: w ++ rest) with ((c :: w) ++ rest).
  rewrite firstn_prefix by reflexivity.
  replace (S pos + length w) with (pos + length (c :: w)) by (cbn [length]; lia).
  exact Hk.
Qed.

(** White space, a sign, and the rest: such a continuation cannot start
    on a code unit that is neither white space nor the sign. *)
Lemma failsOn_space_sign (q : char -> bool) a r k :
  isSpace (ch a) = false ->
  (forall c, q c = true -> isSpace c = false) -> q (ch a) = false ->
  failsOn q (m (Star (Class isSpace) ;; Chr a ;; r) k).
Proof.
  intros Ha Hq Hqa pos c s cs Hc. rewrite m_seq.
  rewrite m_star_span.
  - cbn [takeWhile dropWhile]. rewrite (Hq c Hc). cbn [length].
    rewrite m_seq, m_chr.
    rewrite (class_excludes q a c Hqa Hc). reflexivity.
  - intros pos' c' s' cs' Hc'. rewrite m_seq.
    apply (failsOn_chr isSpace a (m r k) Ha); assumption.
Qed.

End DeclComplete.

Section DeclRun.

Lemma stop_app (q : char -> bool) w x :
  (forall c, In c w -> q c = false) ->
  (forall c s, x = c :: s -> q c = false) ->
  forall c s, w ++ x = c :: s -> q c = false.
Proof.
  intros Hw Hx c s E. destruct w as [|d w]; cbn [app] in E.
  - apply (Hx c s E).
  - inversion E; subst. apply Hw. left; reflexivity.
Qed.

Lemma stop_spaces (q : char -> bool) w x :
  (forall c, isSpace c = true -> q c = false) -> all isSpace w ->
  (forall c s, x = c :: s -> q c = false) ->
  forall c s, w ++ x = c :: s -> q c = false.
Proof.
  intros Hq Hw. apply stop_app. intros c Hin. apply Hq.
  unfold all in Hw. rewrite Forall_forall in Hw. apply Hw, Hin.
Qed.

Lemma stop_identifier w x :
  identifier w -> forall c s, w ++ x = c :: s -> isSpace c = false.
Proof.
  intros [Hne Hw] c s E. destruct w as [|d w]; [congruence|].
  inversion E; subst. inversion Hw; subst. apply isWord_not_space. assumption.
Qed.

Lemma inTypes_not_space c : inTypes c = true -> isSpace c = false.
Proof.
  unfold inTypes. rewrite orb_true_iff, N.eqb_eq. intros [H| <-].
  - apply isWord_not_space, H.
  - reflexivity.
Qed.

Lemma isSpace_not_inTypes c : isSpace c = true -> inTypes c = false.
Proof.
  intros H. destruct (inTypes c) eqn:E; [|reflexivity].
  apply inTypes_not_space in E. congruence.
Qed.

Lemma moreTypes_stop ts rest :
  Forall identifier ts ->
  (forall c s, rest = c :: s -> inTypes c = false) ->
  forall c s, moreTypes ts ++ rest = c :: s -> isWord c = false.
Proof.
  intros Hts Hrest c s E. destruct ts as [|t ts].
  - cbn in E. pose proof (Hrest c s E) as H. unfold inTypes in H.
    apply orb_false_iff in H. apply H.
  - cbn in E. inversion E; subst. reflexivity.
Qed.

Lemma star_types_fails k :
  failsOn inTypes k ->
  failsOn isWord (m (Star (Chr "," ;; Plus (Class isWord))) k).
Proof.
  intros Hk pos c s cs Hc. rewrite m_star_unfold, m_seq, m_chr.
  rewrite (class_excludes isWord "," c eq_refl Hc).
  apply Hk. unfold inTypes. rewrite Hc. reflexivity.
Qed.

(** The iteration over the further types takes all of them. *)
Lemma types_run ts : Forall identifier ts ->
  forall k rest pos cs,
    failsOn inTypes k ->
    (forall c s, rest = c :: s -> inTypes c = false) ->
    m (Star (Chr "," ;; Plus (Class isWord))) k pos (moreTypes ts ++ rest) cs
    = k (pos + length (moreTypes ts)) rest cs.
Proof.
  intros Hts. induction Hts as [|t ts Ht Hts IH]; intros k rest pos cs Hk Hrest.
  - cbn [moreTypes flat_map app length]. rewrite Nat.add_0_r.
    rewrite m_star_unfold, m_seq, m_chr.
    destruct rest as [|c s]; [reflexivity|].
    pose proof (Hrest c s eq_refl) as Hc. unfold inTypes in Hc.
    apply orb_false_iff in Hc. destruct Hc as [_ Hc]. rewrite Hc.
    reflexivity.
  - change (moreTypes (t :: ts)) with ((lit "," ++ t) ++ moreTypes ts).
    replace (((lit "," ++ t) ++ moreTypes ts) ++ rest)
      with (ch "," :: t ++ (moreTypes ts ++ rest))
      by (cbn [lit list_ascii_of_string map app];
          rewrite <- !app_assoc; reflexivity).
    rewrite m_star_unfold, m_seq, m_chr, N.eqb_refl.
    rewrite m_plus_run.
    + replace (length (moreTypes ts ++ rest)
               <? length (ch "," :: t ++ moreTypes ts ++ rest)) with true
        by (symmetry; apply Nat.ltb_lt; cbn [length];
            rewrite (length_app t); lia).
      rewrite IH by assumption.
      rewrite (Hk pos (ch ",") _ cs eq_refl).
      replace (pos + length ((lit "," ++ t) ++ moreTypes ts))
        with (S pos + length t + length (moreTypes ts))
        by (rewrite !length_app; cbn [lit list_ascii_of_string map length];
            lia).
      destruct (k _ rest cs); reflexivity.
    + apply Ht.
    + apply Ht.
    + apply moreTypes_stop; assumption.
    + intros q c s cs' Hc.
      destruct (length (c :: s) <? _); [|reflexivity].
      apply star_types_fails; assumption.
Qed.

Lemma join_cons t ts sep :
  join (t :: ts) sep = t ++ flat_map (fun u => sep ++ u) ts.
Proof.
  revert t; induction ts as [|u ts IH]; intros t.
  - cbn. symmetry; apply app_nil_r.
  - change (join (t :: u :: ts) sep) with (t ++ sep ++ join (u :: ts) sep).
    rewrite IH. cbn [flat_map]. rewrite <- app_assoc. reflexivity.
Qed.

(** The head of the declaration pattern takes the name, the colon and all
    the types. *)
Lemma head_run nm ts rest k pos cs :
  identifier nm -> ts <> [] -> Forall identifier ts ->
  (forall c s, rest = c :: s -> inTypes c = false) ->
  failsOn inTypes k ->
  m declHead k pos ((nm ++ lit ":" ++ join ts (lit ",")) ++ rest) cs
  = k (pos + length (nm ++ lit ":" ++ join ts (lit ","))) rest cs.
Proof.
  intros Hnm Hne Hts Hrest Hk.
  destruct ts as [|t ts]; [congruence|].
  inversion Hts as [|? ? Ht Hts']; subst.
  rewrite join_cons. fold (moreTypes ts).
  replace ((nm ++ lit ":" ++ t ++ moreTypes ts) ++ rest)
    with (nm ++ (ch ":" :: t ++ (moreTypes ts ++ rest)))
    by (cbn [lit list_ascii_of_string map app];
        rewrite <- !app_assoc; cbn [app]; rewrite <- !app_assoc; reflexivity).
  unfold declHead, W. rewrite m_seq.
  rewrite m_plus_run.
  - rewrite m_seq, m_chr, N.eqb_refl, m_seq.
    rewrite m_plus_run.
    + rewrite types_run by assumption.
      f_equal. repeat rewrite length_app.
      cbn [lit list_ascii_of_string map length].
      repeat rewrite length_app. lia.
    + apply Ht.
    + apply Ht.
    + apply moreTypes_stop; assumption.
    + apply star_types_fails, Hk.
  - apply Hnm.
  - apply Hnm.
  - intros c s E. inversion E; reflexivity.
  - intros q c s cs' Hc. rewrite m_seq.
    apply (failsOn_chr isWord ":" _ eq_refl); assumption.
Qed.

End DeclRun.

Section DeclWhole.

Lemma failsOn_space_group n k :
  failsOn isSpace (m (Group n (Plus (Class isWord))) k).
Proof.
  intros pos c s cs Hc. rewrite m_group, m_plus_class.
  rewrite (isSpace_not_word c Hc). reflexivity.
Qed.

(** After the head, the signs, the alias and the return type are taken in
    turn. *)
Lemma tail_run w1 w2 al w3 w4 ret rest k pos cs r :
  all isSpace w1 -> all isSpace w2 -> identifier al ->
  all isSpace w3 -> all isSpace w4 -> identifier ret -> wordStop rest ->
  (forall q, k q rest ((3, ret) :: (2, al) :: cs) = Some (r q)) ->
  exists q,
    m declTail k pos
      (w1 ++ lit "=" ++ w2 ++ al ++ w3 ++ lit ">" ++ w4 ++ ret ++ rest) cs
    = Some (r q).
Proof.
  intros H1 H2 Hal H3 H4 Hret Hrest Hk.
  unfold declTail, Sp, W.
  rewrite m_seq, m_star_run; [|exact H1| |].
  2:{ intros c s E. inversion E; reflexivity. }
  2:{ intros q c s cs' Hc. rewrite m_seq.
      apply (failsOn_chr isSpace "=" _ eq_refl); assumption. }
  rewrite m_seq.
  change (lit "=" ++ w2 ++ al ++ w3 ++ lit ">" ++ w4 ++ ret ++ rest)
    with (ch "=" :: w2 ++ al ++ w3 ++ lit ">" ++ w4 ++ ret ++ rest).
  rewrite m_chr, N.eqb_refl.
  rewrite m_seq, m_star_run; [|exact H2| |].
  2:{ apply stop_identifier, Hal. }
  2:{ intros q c s cs' Hc. rewrite m_seq. apply failsOn_space_group, Hc. }
  rewrite m_seq, m_group_plus_run; [|exact Hal| |].
  2:{ unfold wordStop.
      apply (stop_spaces isWord w3 _ isSpace_not_word H3).
      intros c s E. inversion E; reflexivity. }
  2:{ apply (failsOn_space_sign isWord ">" _ _ eq_refl isWord_not_space
               eq_refl). }
  rewrite m_seq, m_star_run; [|exact H3| |].
  2:{ intros c s E. inversion E; reflexivity. }
  2:{ intros q c s cs' Hc. rewrite m_seq.
      apply (failsOn_chr isSpace ">" _ eq_refl); assumption. }
  rewrite m_seq.
  change (lit ">" ++ w4 ++ ret ++ rest) with (ch ">" :: w4 ++ ret ++ rest).
  rewrite m_chr, N.eqb_refl.
  rewrite m_seq, m_star_run; [|exact H4| |].
  2:{ apply stop_identifier, Hret. }
  2:{ apply failsOn_space_group. }
  eexists. apply m_group_plus_last; [exact Hret | exact Hrest |]. apply Hk.
Qed.

(** Every line of the declared shape matches the declaration pattern,
    with the head, the alias and the return type as its groups. *)
Lemma decl_exec_complete nm ts w1 w2 al w3 w4 ret rest :
  identifier nm -> ts <> [] -> Forall identifier ts ->
  all isSpace w1 -> all isSpace w2 -> identifier al ->
  all isSpace w3 -> all isSpace w4 -> identifier ret -> wordStop rest ->
  exists res,
    exec re_decl
      ((nm ++ lit ":" ++ join ts (lit ","))
       ++ w1 ++ lit "=" ++ w2 ++ al ++ w3 ++ lit ">" ++ w4 ++ ret ++ rest)
    = Some res /\
    group 1 res = nm ++ lit ":" ++ join ts (lit ",") /\
    group 2 res = al /\ group 3 res = ret.
Proof.
  intros Hnm Hne Hts H1 H2 Hal H3 H4 Hret Hrest.
  change re_decl with (Bol ;; Group 1 declHead ;; declTail).
  rewrite exec_bol. unfold anchored.
  rewrite m_group, m_seq, m_bol0, m_seq, m_group.
  rewrite head_run; try assumption.
  - rewrite Nat.add_0_l, Nat.sub_0_r.
    rewrite firstn_prefix by reflexivity.
    match goal with
    | |- exists res, m declTail ?k ?pos ?s ?cs = Some res /\ _ =>
      destruct (tail_run w1 w2 al w3 w4 ret rest k pos cs
                  (fun q => (q, rest,
                     (0, firstn (q - 0)
                           ((nm ++ lit ":" ++ join ts (lit ","))
                            ++ w1 ++ lit "=" ++ w2 ++ al ++ w3 ++ lit ">"
                            ++ w4 ++ ret ++ rest))
                     :: (3, ret) :: (2, al) :: cs))
                  H1 H2 Hal H3 H4 Hret Hrest) as [q Hq]
    end.
    + intros q. reflexivity.
    + eexists. split; [exact Hq|]. unfold group.
      cbn [snd lookup Nat.eqb]. auto.
  - apply (stop_spaces inTypes w1 _ isSpace_not_inTypes H1).
    intros c s E. inversion E; reflexivity.
  - intros q c s cs' Hc. unfold declTail, Sp.
    apply (failsOn_space_sign inTypes "=" _ _ eq_refl inTypes_not_space
             eq_refl).
    exact Hc.
Qed.

End DeclWhole.

Section DeclRecord.

Lemma indexOf_char_none (c : char) (s : jsstring) :
  Forall (fun x => N.eqb c x = false) s -> indexOf s [c] = None.
Proof.
  intros H. induction H as [|x s Hx _ IH]; rewrite indexOf_unfold.
  - reflexivity.
  - cbn [startsWith]. rewrite Hx. cbn [andb]. rewrite IH. reflexivity.
Qed.

Lemma moreTypes_inTypes ts :
  Forall identifier ts -> all inTypes (moreTypes ts).
Proof.
  intros H. induction H as [|t ts [_ Ht] _ IH]; [constructor|].
  change (moreTypes (t :: ts)) with ((lit "," ++ t) ++ moreTypes ts).
  apply Forall_app. split; [|exact IH].
  constructor; [reflexivity|].
  unfold all in *. rewrite Forall_forall in *. intros c Hc.
  unfold inTypes. rewrite (Ht c Hc). reflexivity.
Qed.

Lemma join_inTypes ts :
  Forall identifier ts -> all inTypes (join ts (lit ",")).
Proof.
  intros H. destruct ts as [|t ts]; [constructor|].
  rewrite join_cons. fold (moreTypes ts).
  inversion H as [|? ? [_ Ht] Hts]; subst.
  apply Forall_app. split; [|apply moreTypes_inTypes, Hts].
  unfold all in *. rewrite Forall_forall in *. intros c Hc.
  unfold inTypes. rewrite (Ht c Hc). reflexivity.
Qed.

Lemma types_no_colon ts :
  Forall identifier ts -> indexOf (join ts (lit ",")) (lit ":") = None.
Proof.
  intros H. apply (indexOf_char_none (ch ":")).
  pose proof (join_inTypes ts H) as Hall.
  unfold all in Hall. rewrite Forall_forall in *. intros c Hc.
  specialize (Hall c Hc). unfold inTypes in Hall.
  apply orb_true_iff in Hall. destruct Hall as [Hw|Hcomma].
  - apply (class_excludes isWord ":" c eq_refl Hw).
  - apply N.eqb_eq in Hcomma. subst c. reflexivity.
Qed.

(** The head of a declaration splits at its colon into the name and the
    types. *)
Lemma split_head nm ts :
  identifier nm -> Forall identifier ts ->
  split (nm ++ lit ":" ++ join ts (lit ",")) (lit ":")
  = [nm; join ts (lit ",")].
Proof.
  intros [_ Hnm] Hts. rewrite split_eq by discriminate.
  change (lit ":" ++ join ts (lit ",")) with (ch ":" :: join ts (lit ",")).
  change (lit ":") with [ch ":"].
  rewrite (indexOf_after_run isWord nm (ch ":") _ Hnm eq_refl).
  rewrite firstn_prefix by reflexivity.
  change (nm ++ ch ":" :: join ts (lit ","))
    with (nm ++ [ch ":"] ++ join ts (lit ",")).
  replace (length nm + length [ch ":"]) with (length (nm ++ [ch ":"]))
    by (rewrite length_app; reflexivity).
  rewrite app_assoc, skipn_app, skipn_all, Nat.sub_diag. cbn [skipn app].
  rewrite split_eq by discriminate.
  change [ch ":"] with (lit ":"). rewrite (types_no_colon ts Hts).
  reflexivity.
Qed.

Lemma lang_types z :
  lang (Star (Chr "," ;; Plus (Class isWord))) z ->
  exists ts, Forall identifier ts /\ z = moreTypes ts.
Proof.
  intros H. remember (Star (Chr "," ;; Plus (Class isWord))) as r eqn:Er.
  induction H as [| | | | | |a x y Hx _ Hy IH|]; try discriminate.
  - exists []. split; [constructor | reflexivity].
  - inversion Er; subst a. destruct (IH eq_refl) as (ts & Hts & ->).
    apply lang_seq_inv in Hx. destruct Hx as (u & t & -> & Hu & Ht).
    apply lang_chr_inv in Hu. subst u.
    apply lang_plus_identifier in Ht.
    exists (t :: ts). split; [constructor; assumption | reflexivity].
Qed.

Lemma head_lang x1 :
  lang declHead x1 ->
  exists nm ts, identifier nm /\ ts <> [] /\ Forall identifier ts /\
                x1 = nm ++ lit ":" ++ join ts (lit ",").
Proof.
  unfold declHead, W. intros H.
  apply lang_seq_inv in H. destruct H as (nm & r1 & -> & Hnm & H).
  apply lang_seq_inv in H. destruct H as (colon & r2 & -> & Hc & H).
  apply lang_seq_inv in H. destruct H as (t & z & -> & Ht & Hz).
  apply lang_chr_inv in Hc. subst colon.
  apply lang_plus_identifier in Hnm. apply lang_plus_identifier in Ht.
  apply lang_types in Hz. destruct Hz as (ts & Hts & ->).
  exists nm, (t :: ts). split; [exact Hnm|]. split; [discriminate|].
  split; [constructor; assumption|].
  rewrite join_cons. reflexivity.
Qed.

(** A line of the declared shape is read as the record of its parts. *)
Lemma parseLine_complete nm ts w1 w2 al w3 w4 ret rest :
  identifier nm -> ts <> [] -> Forall identifier ts ->
  all isSpace w1 -> all isSpace w2 -> identifier al ->
  all isSpace w3 -> all isSpace w4 -> identifier ret -> wordStop rest ->
  parseLine ((nm ++ lit ":" ++ join ts (lit ","))
             ++ w1 ++ lit "=" ++ w2 ++ al ++ w3 ++ lit ">" ++ w4 ++ ret ++ rest)
  = Some {| name := nm; argType := join ts (lit ",");
            alias := al; returnType := ret |}.
Proof.
  intros Hnm Hne Hts H1 H2 Hal H3 H4 Hret Hrest.
  destruct (decl_exec_complete nm ts w1 w2 al w3 w4 ret rest
              Hnm Hne Hts H1 H2 Hal H3 H4 Hret Hrest)
    as (res & He & G1 & G2 & G3).
  unfold parseLine. rewrite He. cbv zeta. rewrite G1, G2, G3.
  rewrite (split_head nm ts Hnm Hts). reflexivity.
Qed.

(** What a parsed line was made of; the return type may still be followed
    by word characters here. *)
Lemma parseLine_parts line fn :
  parseLine line = Some fn ->
  exists (ts : list jsstring) (w1 w2 w3 w4 rest : jsstring),
    line = (name fn ++ lit ":" ++ join ts (lit ","))
           ++ w1 ++ lit "=" ++ w2 ++ alias fn ++ w3 ++ lit ">" ++ w4
           ++ returnType fn ++ rest /\
    identifier (name fn) /\ ts <> [] /\ Forall identifier ts /\
    argType fn = join ts (lit ",") /\
    identifier (alias fn) /\ identifier (returnType fn) /\
    all isSpace w1 /\ all isSpace w2 /\ all isSpace w3 /\ all isSpace w4.
Proof.
  unfold parseLine.
  destruct (exec re_decl line) as [mt|] eqn:E; [|discriminate].
  intros H; inversion H; subst fn; clear H. cbn [name argType alias returnType].
  destruct (decl_exec_parts line mt E)
    as (x1 & w1 & w2 & x2 & w3 & w4 & x3 & rest & Hl & Hh & H1 & H2 & Hx2
        & H3 & H4 & Hx3 & G1 & G2 & G3).
  destruct (head_lang x1 Hh) as (nm & ts & Hnm & Hne & Hts & ->).
  rewrite G1, G2, G3, (split_head nm ts Hnm Hts). cbn [hd tl join].
  exists ts, w1, w2, w3, w4, rest.
  split; [exact Hl|]. repeat (split; [assumption|]). tauto.
Qed.

(** A line read as a record has the declared shape. *)
Lemma parseLine_shaped (line : jsstring) (fn : LibFunction) :
  parseLine line = Some fn -> declShape line fn.
Proof.
  intros Hp.
  destruct (parseLine_parts line fn Hp)
    as (ts & w1 & w2 & w3 & w4 & rest & Hl & Hnm & Hne & Hts & Ha & Hal
        & Hret & H1 & H2 & H3 & H4).
  set (ret' := returnType fn ++ takeWhile isWord rest).
  assert (Hret' : identifier ret').
  { destruct Hret as [Hr1 Hr2]. split.
    - unfold ret'. destruct (returnType fn); [congruence | discriminate].
    - apply Forall_app. split; [exact Hr2 | apply takeWhile_all]. }
  assert (Hstop : wordStop (dropWhile isWord rest)).
  { intros c s E. clear - E.
    induction rest as [|x rest IH]; cbn [dropWhile] in E; [discriminate|].
    destruct (isWord x) eqn:Ex; [apply IH, E|].
    inversion E; subst. exact Ex. }
  pose proof (parseLine_complete (name fn) ts w1 w2 (alias fn) w3 w4 ret'
                (dropWhile isWord rest)
                Hnm Hne Hts H1 H2 Hal H3 H4 Hret' Hstop) as Hc.
  assert (Hline : (name fn ++ lit ":" ++ join ts (lit ","))
                  ++ w1 ++ lit "=" ++ w2 ++ alias fn ++ w3 ++ lit ">" ++ w4
                  ++ ret' ++ dropWhile isWord rest = line).
  { rewrite Hl. unfold ret'. rewrite <- (app_assoc (returnType fn)).
    rewrite take_drop. reflexivity. }
  rewrite Hline, Hp in Hc.
  apply (f_equal (option_map returnType)) in Hc.
  cbn [option_map returnType] in Hc.
  assert (Hr : returnType fn = ret') by congruence.
  clear Hc.
  exists ts, w1, w2, w3, w4, (dropWhile isWord rest).
  split.
  { rewrite <- Hline at 1. rewrite <- Hr, <- Ha.
    rewrite <- !app_assoc. reflexivity. }
  repeat (split; [assumption|]). exact Hstop.
Qed.

(** A line of the declared shape is read as its record. *)
Lemma declShape_parseLine (line : jsstring) (fn : LibFunction) :
  declShape line fn -> parseLine line = Some fn.
Proof.
  intros (ts & w1 & w2 & w3 & w4 & rest & Hl & Hnm & Hne & Hts & Ha & Hal
          & Hret & H1 & H2 & H3 & H4 & Hstop).
  pose proof (parseLine_complete (name fn) ts w1 w2 (alias fn) w3 w4
                (returnType fn) rest
                Hnm Hne Hts H1 H2 Hal H3 H4 Hret Hstop) as Hc.
  rewrite <- Ha in Hc. rewrite <- !app_assoc in Hc. cbn [app] in Hc.
  rewrite Hl. cbn [lit list_ascii_of_string map app].
  cbn [lit list_ascii_of_string map app] in Hc.
  rewrite Hc. destruct fn; reflexivity.
Qed.

End DeclRecord.

(** X1.  A line is read as a record exactly when it has the declared
    shape: name, colon, one or more types separated by commas, equals
    sign, alias, greater-than sign and return type, all identifiers, with
    optional white space around the two signs only; whatever follows the
    return type is ignored.  The record holds exactly these parts. *)
Theorem parseLine_shape (line : jsstring) (fn : LibFunction) :
  parseLine line = Some fn <-> declShape line fn.
Proof.
  split; [apply parseLine_shaped | apply declShape_parseLine].
Qed.

Section DeclCorollaries.

Lemma wordStop_app rest junk :
  wordStop rest -> wordStop junk -> wordStop (rest ++ junk).
Proof.
  intros Hr Hj c s E. destruct rest as [|d rest]; cbn [app] in E.
  - apply (Hj c s E).
  - inversion E; subst. apply (Hr c rest eq_refl).
Qed.

Lemma identifier_head w x c s :
  identifier w -> w ++ x = c :: s -> isWord c = true.
Proof.
  intros [Hne Hw] E. destruct w as [|d w]; [congruence|].
  inversion E; subst. inversion Hw; subst. assumption.
Qed.

Ltac find_char :=
  cbn [lit list_ascii_of_string map app];
  repeat first [ left; reflexivity | apply in_or_app; right | right ].

Lemma declShape_signs line fn :
  declShape line fn ->
  In (ch ":") line /\ In (ch "=") line /\ In (ch ">") line.
Proof.
  intros (ts & w1 & w2 & w3 & w4 & rest & -> & _).
  split; [|split]; find_char.
Qed.

End DeclCorollaries.

(** X2.  Whatever follows the return type of a declaration line is
    ignored, as long as it does not continue the return type: a carriage
    return, a comment, more white space. *)
Theorem parseLine_ignores_tail (line junk : jsstring) (fn : LibFunction) :
  parseLine line = Some fn -> wordStop junk ->
  parseLine (line ++ junk) = Some fn.
Proof.
  intros Hp Hj. apply declShape_parseLine. apply parseLine_shaped in Hp.
  destruct Hp as (ts & w1 & w2 & w3 & w4 & rest & Hl & Hrest).
  exists ts, w1, w2, w3, w4, (rest ++ junk).
  split.
  - rewrite Hl. repeat rewrite <- app_assoc. reflexivity.
  - destruct Hrest as (? & ? & ? & ? & ? & ? & ? & ? & ? & ? & Hstop).
    repeat (split; [assumption|]). apply wordStop_app; assumption.
Qed.

Lemma parseLine_ignores_tail_witness :
  parseLine (lit "add:int,int = c_add > int" ++ [13%N]) = Some addRecord.
Proof.
  apply (parseLine_ignores_tail (lit "add:int,int = c_add > int") [13%N]
           addRecord).
  - vm_compute. reflexivity.
  - intros c s E. inversion E; subst. vm_compute. reflexivity.
Defined.

(** X3.  A line is skipped when it is empty or starts outside an
    identifier (indentation, a comment sign, a bracket), and when it has
    no colon, no equals sign or no greater-than sign. *)
Theorem parseLine_skips (line : jsstring) :
  wordStop line \/ ~ In (ch ":") line \/ ~ In (ch "=") line
  \/ ~ In (ch ">") line ->
  parseLine line = None.
Proof.
  intros H. destruct (parseLine line) as [fn|] eqn:E; [|reflexivity].
  exfalso. apply parseLine_shaped in E.
  destruct (declShape_signs line fn E) as (Hc & He & Hg).
  destruct H as [H|[H|[H|H]]]; try tauto.
  destruct E as (ts & w1 & w2 & w3 & w4 & rest & Hl & Hnm & _).
  destruct line as [|c s].
  - destruct Hnm as [Hne _]. destruct (name fn); [congruence|discriminate].
  - pose proof (H c s eq_refl) as Hc0.
    symmetry in Hl. pose proof (identifier_head _ _ c s Hnm Hl). congruence.
Qed.

Lemma parseLine_skips_witness :
  parseLine (lit "  add:int,int = c_add > int") = None.
Proof.
  apply parseLine_skips. left.
  intros c s E. inversion E; subst. vm_compute. reflexivity.
Defined.

(** ** Records of the registry *)

Section RecordInvariant.
Variable P : LibFunction -> Prop.
Hypothesis parsed : forall line fn, parseLine line = Some fn -> P fn.

Lemma scanLines_records lines : forall functions,
  Forall P functions -> Forall P (scanLines lines functions).
Proof.
  induction lines as [|line lines IH]; intros functions Hf; cbn [scanLines].
  - exact Hf.
  - destruct (parseLine line) as [fn|] eqn:E; [|apply IH, Hf].
    apply IH. apply Forall_app. split; [exact Hf|].
    constructor; [apply (parsed line), E | constructor].
Qed.

Lemma loadLoop_records h dir files : forall reg,
  (forall lib funcs, JsMap.get lib reg = Some funcs -> Forall P funcs) ->
  forall lib funcs,
    JsMap.get lib (fst (loadLoop h dir files reg)) = Some funcs ->
    Forall P funcs.
Proof.
  induction files as [|file files IH]; intros reg Hr; [exact Hr|].
  rewrite loadLoop_cons.
  destruct (endsWith file mapExt); cbn [negb]; [|apply IH, Hr].
  destruct (readFileSync h (path_join h dir file)) as [content|];
    [|exact Hr].
  destruct (funcSectionOf content) as [sec|]; [|apply IH, Hr].
  destruct (truthy sec); cbn [negb]; [|apply IH, Hr].
  apply IH. intros lib funcs.
  destruct (str_eqb (basename file mapExt) lib) eqn:E.
  - apply str_eqb_eq in E. subst lib. rewrite get_set_same.
    intros H; inversion H; subst. apply scanLines_records. constructor.
  - apply str_eqb_neq in E. rewrite get_set_other by exact E. apply Hr.
Qed.

Lemma loadMapFiles_records h reg lib funcs :
  JsMap.get lib (fst (loadMapFiles h reg)) = Some funcs -> Forall P funcs.
Proof.
  unfold loadMapFiles. cbv zeta. cbn [JsMap.clear].
  destruct (getMapDir h) as [dir|]; [|discriminate].
  destruct (negb (truthy dir) || negb (existsSync h dir)); [discriminate|].
  destruct (readdirSync h dir) as [files|]; [|discriminate].
  apply loadLoop_records. intros lib' funcs' H. discriminate.
Qed.

End RecordInvariant.

Section Types.

Lemma declShape_wellDeclared line fn : declShape line fn -> wellDeclared fn.
Proof.
  intros (ts & w1 & w2 & w3 & w4 & rest & _ & Hnm & Hne & Hts & Ha & Hal
          & Hret & _).
  repeat (split; [assumption|]). exists ts. auto.
Qed.

Lemma dropWhile_stop (p : char -> bool) s :
  (forall c s', s = c :: s' -> p c = false) -> dropWhile p s = s.
Proof.
  intros H. destruct s as [|c s]; [reflexivity|].
  cbn [dropWhile]. rewrite (H c s eq_refl). reflexivity.
Qed.

(** Trimming leaves an identifier as it is. *)
Lemma trim_identifier t : identifier t -> trim t = t.
Proof.
  intros [Hne Ht]. unfold trim.
  rewrite (dropWhile_stop isSpace t).
  - rewrite dropWhile_stop; [apply rev_involutive|].
    intros c s' E. apply isWord_not_space.
    unfold all in Ht. rewrite Forall_forall in Ht. apply Ht.
    apply in_rev. rewrite E. left; reflexivity.
  - intros c s' E. apply isWord_not_space.
    unfold all in Ht. rewrite Forall_forall in Ht. apply Ht.
    rewrite E. left; reflexivity.
Qed.

Lemma identifier_no_comma t :
  identifier t -> Forall (fun x => N.eqb (ch ",") x = false) t.
Proof.
  intros [_ Ht]. unfold all in Ht. rewrite Forall_forall in *.
  intros c Hc. apply (class_excludes isWord "," c eq_refl (Ht c Hc)).
Qed.

(** Splitting at the commas gives back the types that were joined. *)
Lemma split_join_types ts :
  ts <> [] -> Forall identifier ts ->
  split (join ts (lit ",")) (lit ",") = ts.
Proof.
  intros Hne Hts. induction Hts as [|t ts Ht Hts IH]; [congruence|].
  destruct ts as [|u ts].
  - cbn [join]. rewrite split_eq by discriminate.
    change (lit ",") with [ch ","].
    rewrite (indexOf_char_none (ch ",") t (identifier_no_comma t Ht)).
    reflexivity.
  - change (join (t :: u :: ts) (lit ","))
      with (t ++ ch "," :: join (u :: ts) (lit ",")).
    rewrite split_eq by discriminate.
    change (lit ",") with [ch ","].
    destruct Ht as [Hne' Ht].
    rewrite (indexOf_after_run isWord t (ch ",") _ Ht eq_refl).
    rewrite firstn_prefix by reflexivity.
    change (t ++ ch "," :: join (u :: ts) [ch ","])
      with (t ++ [ch ","] ++ join (u :: ts) [ch ","]).
    replace (length t + length [ch ","]) with (length (t ++ [ch ","]))
      by (rewrite length_app; reflexivity).
    rewrite app_assoc, skipn_app, skipn_all, Nat.sub_diag. cbn [skipn app].
    change [ch ","] with (lit ","). rewrite IH by discriminate.
    reflexivity.
Qed.

Lemma argsOf_types fn ts :
  ts <> [] -> Forall identifier ts -> argType fn = join ts (lit ",") ->
  argsOf fn = ts.
Proof.
  intros Hne Hts Ha. unfold argsOf. rewrite Ha.
  rewrite (split_join_types ts Hne Hts).
  assert (Htr : truthy (join ts (lit ",")) = true).
  { destruct ts as [|t ts]; [congruence|].
    inversion Hts as [|? ? [Ht _] _]; subst.
    rewrite join_cons. destruct t; [congruence | reflexivity]. }
  rewrite Htr. clear Htr Ha Hne.
  induction Hts as [|t ts Ht _ IH]; [reflexivity|].
  cbn [map]. rewrite (trim_identifier t Ht), IH. reflexivity.
Qed.

Lemma loadMapFiles_wellDeclared
  (h : Host) (reg : Registry) (lib : jsstring) (funcs : list LibFunction) :
  JsMap.get lib (fst (loadMapFiles h reg)) = Some funcs ->
  Forall wellDeclared funcs.
Proof.
  apply (loadMapFiles_records wellDeclared).
  intros line f Hp.
  exact (declShape_wellDeclared line f (parseLine_shaped line f Hp)).
Qed.

End Types.

(** X4.  Every record that [reload] leaves in the registry has
    identifiers for its name, alias and return type, and for argument
    types one or more identifiers separated by commas. *)
Theorem reload_records_wellDeclared
  (h : Host) (reg : Registry) (lib : jsstring) (funcs : list LibFunction)
  (fn : LibFunction) :
  JsMap.get lib (fst (loadMapFiles h reg)) = Some funcs -> In fn funcs ->
  wellDeclared fn.
Proof.
  intros Hget Hin.
  pose proof (loadMapFiles_wellDeclared h reg lib funcs Hget) as Hall.
  rewrite Forall_forall in Hall. exact (Hall fn Hin).
Qed.

Lemma reload_records_wellDeclared_witness : wellDeclared addRecord.
Proof.
  apply (reload_records_wellDeclared sampleHost [] (lit "mathlib")
           (parseSection (newline ++ lit "add:int,int = c_add > int" ++ newline
                          ++ lit "cos:float = c_cos > float" ++ newline
                          ++ lit "cot:float = c_cot > float" ++ newline))).
  - vm_compute. reflexivity.
  - vm_compute. left. reflexivity.
Defined.

(** X5.  On a registry left by [reload], signature help shows one
    parameter for each declared type, in order: the parameters are the
    type identifiers of the record, and the label is the name, the types
    separated by comma and space in parentheses, an arrow and the return
    type. *)
Theorem signatureHelp_shows_types
  (h : Host) (reg0 : Registry) (line : jsstring) (character : nat)
  (help : SignatureHelp) :
  provideSignatureHelp (fst (loadMapFiles h reg0)) line character = Some help ->
  exists lib funcs f ts,
    JsMap.get lib (fst (loadMapFiles h reg0)) = Some funcs /\ In f funcs /\
    ts <> [] /\ Forall identifier ts /\ argType f = join ts (lit ",") /\
    help = {| signatures :=
                [{| sig_label := name f ++ lit "(" ++ join ts (lit ", ")
                                 ++ lit ") -> " ++ returnType f;
                    sig_documentation := lit "From library: " ++ lib;
                    parameters := ts |}];
              activeSignature := 0;
              activeParameter :=
                Z.min (Z.of_nat (countChar (ch ",") (slice0 line character)))
                      (Z.of_nat (length ts) - 1) |}.
Proof.
  unfold provideSignatureHelp. cbv zeta.
  destruct (callSite (slice0 line character)) as [[lib fn]|]; [|discriminate].
  destruct (JsMap.get lib (fst (loadMapFiles h reg0))) as [funcs|] eqn:Eg;
    [|discriminate].
  destruct (find _ funcs) as [f|] eqn:Ef; [|discriminate].
  intros H; inversion H; subst help; clear H.
  apply find_some in Ef. destruct Ef as [Hin _].
  pose proof (loadMapFiles_wellDeclared h reg0 lib funcs Eg) as Hall.
  rewrite Forall_forall in Hall.
  destruct (Hall f Hin) as (_ & _ & _ & ts & Hne & Hts & Ha).
  exists lib, funcs, f, ts.
  rewrite (argsOf_types f ts Hne Hts Ha), matchAll_comma.
  repeat (split; [assumption|]). reflexivity.
Qed.

Lemma signatureHelp_shows_types_witness :
  exists help,
    provideSignatureHelp (fst (loadMapFiles sampleHost []))
      (lit "mathlib.add(1,") 14 = Some help /\
    map parameters (signatures help) = [[lit "int"; lit "int"]].
Proof.
  destruct (provideSignatureHelp (fst (loadMapFiles sampleHost []))
              (lit "mathlib.add(1,") 14) as [help|] eqn:E;
    [|vm_compute in E; discriminate].
  exists help. split; [reflexivity|].
  destruct (signatureHelp_shows_types _ _ _ _ _ E)
    as (lib & funcs & f & ts & _ & _ & _ & _ & _ & Hhelp).
  vm_compute in E. injection E as E'. subst help. reflexivity.
Defined.

(** ** Order and uniqueness of the library names *)

Section KeyOrder.

Lemma keys_set_new (V : Type) k (v : V) mp :
  JsMap.get k mp = None -> JsMap.keys (JsMap.set k v mp) = JsMap.keys mp ++ [k].
Proof.
  induction mp as [|[k0 v0] mp IH]; cbn [JsMap.get JsMap.set]; intros H.
  - reflexivity.
  - destruct (str_eqb k0 k); [discriminate|].
    unfold JsMap.keys in *. cbn [map fst app]. rewrite IH by exact H.
    reflexivity.
Qed.

Lemma keys_set_old (V : Type) k (v : V) mp :
  JsMap.get k mp <> None -> JsMap.keys (JsMap.set k v mp) = JsMap.keys mp.
Proof.
  induction mp as [|[k0 v0] mp IH]; cbn [JsMap.get JsMap.set]; intros H.
  - congruence.
  - destruct (str_eqb k0 k); [reflexivity|].
    unfold JsMap.keys in *. cbn [map fst]. rewrite IH by exact H.
    reflexivity.
Qed.

Lemma keys_set_NoDup (V : Type) k (v : V) mp :
  NoDup (JsMap.keys mp) -> NoDup (JsMap.keys (JsMap.set k v mp)).
Proof.
  intros Hnd. destruct (JsMap.get k mp) as [v0|] eqn:E.
  - rewrite keys_set_old by congruence. exact Hnd.
  - rewrite keys_set_new by exact E.
    apply NoDup_app; [exact Hnd | repeat constructor; intros [] |].
    intros x Hx [<-|[]]. apply get_keys in Hx. congruence.
Qed.

Lemma loadLoop_keys_NoDup h dir files : forall reg,
  NoDup (JsMap.keys reg) ->
  NoDup (JsMap.keys (fst (loadLoop h dir files reg))).
Proof.
  induction files as [|file files IH]; intros reg Hr; [exact Hr|].
  rewrite loadLoop_cons.
  destruct (endsWith file mapExt); cbn [negb]; [|apply IH, Hr].
  destruct (readFileSync h (path_join h dir file)) as [content|];
    [|exact Hr].
  destruct (funcSectionOf content) as [sec|]; [|apply IH, Hr].
  destruct (truthy sec); cbn [negb]; [|apply IH, Hr].
  apply IH, keys_set_NoDup, Hr.
Qed.

Lemma loadLoop_key_order h dir files : forall reg,
  NoDup files ->
  (forall f, In f files -> installsb h dir f = true ->
             JsMap.get (basename f mapExt) reg = None) ->
  snd (loadLoop h dir files reg) = Returned ->
  JsMap.keys (fst (loadLoop h dir files reg))
  = JsMap.keys reg
    ++ map (fun f => basename f mapExt) (filter (installsb h dir) files).
Proof.
  induction files as [|file files IH]; intros reg Hnd Hnew.
  - intros _. cbn. symmetry; apply app_nil_r.
  - inversion Hnd as [|? ? Hnotin Hnd']; subst.
    assert (Hnew' : forall f, In f files -> installsb h dir f = true ->
                              JsMap.get (basename f mapExt) reg = None)
      by (intros f Hf; apply Hnew; right; exact Hf).
    pose proof (Hnew file (or_introl eq_refl)) as Hfile.
    rewrite loadLoop_cons. cbn [filter].
    remember (installsb h dir file) as b eqn:Eb.
    unfold installsb in Eb.
    destruct (endsWith file mapExt) eqn:He; cbn [negb andb] in *;
      [|subst b; apply IH; assumption].
    destruct (readFileSync h (path_join h dir file)) as [content|];
      [|discriminate].
    destruct (funcSectionOf content) as [sec|];
      [|subst b; apply IH; assumption].
    destruct (truthy sec); cbn [negb]; subst b; [|apply IH; assumption].
    intros Hret. rewrite IH; [| exact Hnd' | | exact Hret].
    + rewrite keys_set_new by (apply Hfile; reflexivity).
      cbn [map]. rewrite <- app_assoc. reflexivity.
    + intros f Hf Hinst. rewrite get_set_other; [apply Hnew'; assumption|].
      intros Heq. apply Hnotin.
      assert (Hef : endsWith f mapExt = true).
      { unfold installsb in Hinst. apply andb_true_iff in Hinst. tauto. }
      rewrite (basename_inj file f mapExt He Hef Heq). exact Hf.
Qed.

End KeyOrder.

(** X6.  After a [reload] that returned, the library names stand in the
    registry in the order in which the directory listing gave their
    files, and library-name completion offers them in that order. *)
Theorem reload_key_order
  (h : Host) (reg : Registry) (dir : jsstring) (files : list jsstring)
  (line : jsstring) (character : nat) :
  descriptorDir h dir files -> NoDup files ->
  snd (loadMapFiles h reg) = Returned ->
  JsMap.keys (fst (loadMapFiles h reg))
    = map (fun f => basename f mapExt) (filter (installsb h dir) files) /\
  (usingShape line ->
   map label (provideLibraryCompletionItems (fst (loadMapFiles h reg))
                line character)
     = map (fun f => basename f mapExt) (filter (installsb h dir) files)).
Proof.
  intros Hd Hnd. rewrite (loadMapFiles_dir h dir files reg Hd). intros Hret.
  assert (Hk : JsMap.keys (fst (loadLoop h dir files []))
               = map (fun f => basename f mapExt)
                     (filter (installsb h dir) files)).
  { rewrite (loadLoop_key_order h dir files [] Hnd); [reflexivity| |exact Hret].
    intros; reflexivity. }
  split; [exact Hk|].
  intros Hu. unfold provideLibraryCompletionItems.
  apply using_test in Hu. rewrite Hu, map_map. cbn [label libraryItem].
  rewrite map_id. exact Hk.
Qed.

(** X7.  Whatever the listing and however [reload] ends, no library name
    stands twice in the registry, so none is offered twice. *)
Theorem reload_keys_NoDup (h : Host) (reg : Registry) :
  NoDup (JsMap.keys (fst (loadMapFiles h reg))).
Proof.
  unfold loadMapFiles. cbv zeta. cbn [JsMap.clear].
  destruct (getMapDir h) as [dir|]; [|constructor].
  destruct (negb (truthy dir) || negb (existsSync h dir)); [constructor|].
  destruct (readdirSync h dir) as [files|]; [|constructor].
  apply loadLoop_keys_NoDup. constructor.
Qed.

Lemma reload_key_order_witness :
  JsMap.keys (fst (loadMapFiles twoLibHost [])) = [lit "strlib"; lit "mathlib"].
Proof.
  destruct (reload_key_order twoLibHost [] projDir
              [lit "strlib.map"; lit "README.md"; lit "mathlib.map"]
              (lit "using ") 6) as [Hk _].
  - repeat split; try reflexivity. discriminate.
  - repeat constructor; simpl; intros H;
      repeat (destruct H as [H|H]; [discriminate|]); exact H.
  - vm_compute. reflexivity.
  - rewrite Hk. vm_compute. reflexivity.
Defined.

(** ** What a reload reads *)

Section Frame.

Lemma loadLoop_same h h' dir files : forall reg,
  (forall f, In f files -> endsWith f mapExt = true ->
     readFileSync h (path_join h dir f)
     = readFileSync h' (path_join h' dir f)) ->
  loadLoop h dir files reg = loadLoop h' dir files reg.
Proof.
  induction files as [|file files IH]; intros reg Hfiles; [reflexivity|].
  assert (Hrest : forall f, In f files -> endsWith f mapExt = true ->
            readFileSync h (path_join h dir f)
            = readFileSync h' (path_join h' dir f))
    by (intros f Hf; apply Hfiles; right; exact Hf).
  rewrite !loadLoop_cons.
  destruct (endsWith file mapExt) eqn:Ee; cbn [negb]; [|apply IH, Hrest].
  rewrite <- (Hfiles file (or_introl eq_refl) Ee).
  destruct (readFileSync h (path_join h dir file)) as [content|];
    [|reflexivity].
  destruct (funcSectionOf content) as [sec|]; [|apply IH, Hrest].
  destruct (truthy sec); cbn [negb]; apply IH, Hrest.
Qed.

End Frame.

(** X8.  [reload] reads nothing but the first workspace folder, the
    existence and the listing of its descriptor directory, and the
    entries of that listing that end in [.map]: two hosts that agree on
    these leave the same registry and end the same way. *)
Theorem reload_reads_only_descriptors (h h' : Host) (reg reg' : Registry) :
  getMapDir h = getMapDir h' ->
  (forall dir, getMapDir h = Some dir ->
     existsSync h dir = existsSync h' dir /\
     readdirSync h dir = readdirSync h' dir /\
     forall files f, readdirSync h dir = Some files -> In f files ->
       endsWith f mapExt = true ->
       readFileSync h (path_join h dir f)
       = readFileSync h' (path_join h' dir f)) ->
  loadMapFiles h reg = loadMapFiles h' reg'.
Proof.
  intros Hdir Hsame. unfold loadMapFiles. cbv zeta. cbn [JsMap.clear].
  rewrite <- Hdir. destruct (getMapDir h) as [dir|]; [|reflexivity].
  destruct (Hsame dir eq_refl) as (He & Hl & Hr).
  rewrite <- He, <- Hl.
  destruct (negb (truthy dir) || negb (existsSync h dir)); [reflexivity|].
  destruct (readdirSync h dir) as [files|]; [|reflexivity].
  apply loadLoop_same. intros f Hf. apply (Hr files f eq_refl Hf).
Qed.

Lemma reload_reads_only_descriptors_witness :
  loadMapFiles twoLibHost sampleRegistry
  = loadMapFiles
      {| workspaceFolders := Some [lit "/proj"; lit "/other"];
         path_join := path_join twoLibHost;
         existsSync := existsSync twoLibHost;
         readdirSync := readdirSync twoLibHost;
         readFileSync := fun p =>
           if str_eqb p (lit "/proj/c_map/README.md") then None
           else readFileSync twoLibHost p |} [].
Proof.
  apply reload_reads_only_descriptors.
  - reflexivity.
  - intros dir Hd. vm_compute in Hd. injection Hd as <-.
    split; [reflexivity|]. split; [reflexivity|].
    intros files f Hl Hin He. vm_compute in Hl. injection Hl as <-.
    destruct Hin as [<-|[<-|[<-|[]]]];
      [reflexivity | vm_compute in He; discriminate | reflexivity].
Defined.

(** ** Events of the watcher *)

Section Watching.

Lemma deliver_watched ext ev : watched (deliver ext ev) = watched ext.
Proof. unfold deliver. destruct (watched ext) eqn:E; [reflexivity | exact E]. Qed.

Lemma onWatchEvent_registry h filename reg :
  fst (onWatchEvent h filename reg)
  = if isDescriptorEvent filename then fst (loadMapFiles h []) else reg.
Proof.
  unfold onWatchEvent, isDescriptorEvent. destruct filename as [f|]; [|reflexivity].
  fold mapExt. destruct (truthy f && endsWith f mapExt); reflexivity.
Qed.

Lemma run_unwatched ext evs : watched ext = None -> run ext evs = ext.
Proof.
  intros Hw. unfold run. induction evs as [|ev evs IH]; [reflexivity|].
  cbn [fold_left]. unfold deliver at 2. rewrite Hw. exact IH.
Qed.

Lemma providers_empty line character :
  provideLibraryCompletionItems [] line character = [] /\
  provideMemberCompletionItems [] line character = [] /\
  provideSignatureHelp [] line character = None.
Proof.
  split; [|split].
  - unfold provideLibraryCompletionItems.
    destruct (test re_using line); reflexivity.
  - unfold provideMemberCompletionItems.
    destruct (memberAccess line) as [[lib prefix]|]; reflexivity.
  - unfold provideSignatureHelp. cbv zeta.
    destruct (callSite (slice0 line character)) as [[lib fn]|]; reflexivity.
Qed.

End Watching.

(** X9.  Under watch, the registry after any sequence of events is what a
    reload from nothing gives on the host of the last event that named a
    file ending in [.map]; events with other names, or with no name,
    change nothing. *)
Theorem watch_follows_last_event (ext : Extension) (evs : list event) :
  watched ext <> None ->
  registry (run ext evs)
  = match lastDescriptorEvent evs with
    | Some h => fst (loadMapFiles h [])
    | None => registry ext
    end.
Proof.
  revert ext. induction evs as [|[h filename] evs IH]; intros ext Hw.
  - reflexivity.
  - unfold run. cbn [fold_left]. fold (run (deliver ext (h, filename)) evs).
    rewrite IH by (rewrite deliver_watched; exact Hw).
    cbn [lastDescriptorEvent].
    destruct (lastDescriptorEvent evs) as [h'|]; [reflexivity|].
    unfold deliver. destruct (watched ext) as [d|]; [|congruence].
    cbn [registry fst snd]. rewrite onWatchEvent_registry.
    destruct (isDescriptorEvent filename); reflexivity.
Qed.

Lemma watch_follows_last_event_witness :
  registry (run (fst (activate sampleHost))
              [(notesHost, Some (lit "notes.map"));
               (twoLibHost, Some (lit "strlib.map"));
               (notesHost, Some (lit "notes.txt"));
               (noDirHost, None)])
  = fst (loadMapFiles twoLibHost []).
Proof.
  rewrite (watch_follows_last_event (fst (activate sampleHost))).
  - reflexivity.
  - vm_compute. discriminate.
Defined.

(** X10.  When no project root is open or the descriptor directory is
    missing at activation, [activate] returns with an empty registry and
    nothing under watch; whatever happens to the file system afterwards,
    the registry stays empty and the three providers answer nothing. *)
Theorem activate_without_directory
  (h : Host) (evs : list event) (line : jsstring) (character : nat) :
  dirAbsent h ->
  snd (activate h) = Returned /\
  watched (fst (activate h)) = None /\
  registry (run (fst (activate h)) evs) = [] /\
  provideLibraryCompletionItems (registry (run (fst (activate h)) evs))
    line character = [] /\
  provideMemberCompletionItems (registry (run (fst (activate h)) evs))
    line character = [] /\
  provideSignatureHelp (registry (run (fst (activate h)) evs))
    line character = None.
Proof.
  intros Ha.
  assert (Hw : watchMapFiles h = None).
  { unfold watchMapFiles. unfold dirAbsent in Ha.
    destruct (getMapDir h) as [dir|]; [|reflexivity].
    rewrite Ha, orb_true_r. reflexivity. }
  unfold activate. rewrite (loadMapFiles_absent h [] Ha), Hw.
  cbn [fst snd]. rewrite run_unwatched by reflexivity. cbn [registry watched].
  split; [reflexivity|]. split; [reflexivity|]. split; [reflexivity|].
  apply providers_empty.
Qed.

Lemma activate_without_directory_witness :
  registry (run (fst (activate noDirHost))
              [(sampleHost, Some (lit "mathlib.map"))]) = [].
Proof.
  apply (activate_without_directory noDirHost
           [(sampleHost, Some (lit "mathlib.map"))] (lit "using ") 6).
  vm_compute. reflexivity.
Defined.

(** ** Member access and call sites, as contexts *)

Section ContextShapes.

Lemma skipn_last_of_firstn (s p : jsstring) (c : char) (i : nat) :
  firstn i s = p ++ [c] ->
  skipn (length p) s = c :: skipn i s /\ length p < i.
Proof.
  intros Hf.
  assert (Hi : length p < i).
  { apply (f_equal (@length char)) in Hf.
    rewrite length_app in Hf. cbn [length] in Hf.
    pose proof (firstn_le_length i s) as Hle. lia. }
  split; [|exact Hi].
  rewrite <- (firstn_skipn i s) at 1. rewrite Hf, <- app_assoc.
  rewrite skipn_app, Nat.sub_diag, skipn_all. reflexivity.
Qed.

Lemma memberAccess_shape line lib prefix :
  memberAccess line = Some (lib, prefix) ->
  exists pre,
    line = pre ++ lib ++ lit "." ++ prefix /\
    wordBoundary pre /\ identifier lib /\ all isWord prefix.
Proof.
  unfold memberAccess, exec.
  destruct (search re_member 0 line) as [res|] eqn:E; [|discriminate].
  intros H; inversion H; subst; clear H.
  destruct (search_some _ _ _ _ E) as (i & Hi & Hhit & Hfail).
  destruct (member_anchored_shape _ _ _ Hhit)
    as (lib & prefix & Hs & Hl & Hp & G1 & G2).
  rewrite G1, G2. exists (firstn i line).
  split; [|split; [|split; assumption]].
  - rewrite <- Hs. symmetry; apply firstn_skipn.
  - intros p c Hpc. destruct (isWord c) eqn:Hc; [exfalso|reflexivity].
    destruct (skipn_last_of_firstn _ _ _ _ Hpc) as [Hsk Hlt].
    specialize (Hfail (length p) Hlt). rewrite Hsk, Hs in Hfail.
    assert (Hl' : identifier (c :: lib)).
    { destruct Hl as [_ Hl]. split; [discriminate|].
      constructor; assumption. }
    destruct (member_anchored_hit (0 + length p) (c :: lib) prefix Hl' Hp)
      as [q Hq].
    cbn [app] in Hq. congruence.
Qed.

Lemma in_call_head c lib fn :
  In c (lib ++ lit "." ++ fn) -> all isWord lib -> all isWord fn ->
  isWord c = true \/ c = ch ".".
Proof.
  intros Hin Hl Hf. unfold all in *. rewrite Forall_forall in Hl, Hf.
  apply in_app_or in Hin. destruct Hin as [Hin|Hin]; [left; auto|].
  cbn [lit list_ascii_of_string map app] in Hin.
  destruct Hin as [<-|Hin]; [right; reflexivity | left; auto].
Qed.

(** A call shape of a longer text that starts before a call shape of the
    text is a call shape of the text. *)
Lemma callShape_before u lib fn post more lib' fn' post' :
  u ++ lib ++ lit "." ++ fn ++ lit "(" ++ post ++ more
  = lib' ++ lit "." ++ fn' ++ lit "(" ++ post' ->
  all isWord lib' -> all isWord fn' ->
  exists post'',
    u ++ lib ++ lit "." ++ fn ++ lit "(" ++ post
    = lib' ++ lit "." ++ fn' ++ lit "(" ++ post''.
Proof.
  intros Heq Hl' Hf'.
  assert (E1 : u ++ lib ++ lit "." ++ fn ++ lit "(" ++ post ++ more
               = ((u ++ lib ++ lit "." ++ fn) ++ lit "(") ++ post ++ more).
  { repeat rewrite <- app_assoc. reflexivity. }
  assert (E2 : lib' ++ lit "." ++ fn' ++ lit "(" ++ post'
               = ((lib' ++ lit "." ++ fn') ++ lit "(") ++ post').
  { repeat rewrite <- app_assoc. reflexivity. }
  rewrite E1, E2 in Heq. apply app_eq_app in Heq.
  destruct Heq as [l [[H1 H2]|[H1 H2]]].
  - exists (l ++ post).
    transitivity (((u ++ lib ++ lit "." ++ fn) ++ lit "(") ++ post).
    { repeat rewrite <- app_assoc. reflexivity. }
    rewrite H1. repeat rewrite <- app_assoc. reflexivity.
  - destruct l as [|z l].
    + exists post. rewrite app_nil_r in H1.
      transitivity (((u ++ lib ++ lit "." ++ fn) ++ lit "(") ++ post).
      { repeat rewrite <- app_assoc. reflexivity. }
      rewrite <- H1. repeat rewrite <- app_assoc. reflexivity.
    + exfalso.
      destruct (exists_last (l := z :: l)) as (l0 & y & Hl0); [discriminate|].
      rewrite Hl0 in H1.
      rewrite (app_assoc _ l0 [y]) in H1.
      change (lit "(") with [ch "("] in H1.
      apply app_inj_tail in H1. destruct H1 as [H1 _].
      assert (Hin : In (ch "(") (lib' ++ lit "." ++ fn')).
      { rewrite H1. apply in_or_app. left. apply in_or_app. right.
        left. reflexivity. }
      destruct (in_call_head _ _ _ Hin Hl' Hf') as [H|H]; discriminate.
Qed.

Lemma callSite_extend text more lib fn :
  callSite text = Some (lib, fn) ->
  callSite (text ++ more) = Some (lib, fn).
Proof.
  intros H.
  destruct (callSite_some _ _ _ H) as (pre & post & Ht & Hl & Hf & Hfirst).
  unfold callSite, exec.
  destruct (call_anchored_hit (0 + length pre) lib fn (post ++ more) Hl Hf)
    as [q Hq].
  assert (Hext : text ++ more
                 = pre ++ lib ++ lit "." ++ fn ++ lit "(" ++ post ++ more).
  { rewrite Ht. repeat rewrite <- app_assoc. reflexivity. }
  rewrite Hext.
  rewrite (search_first re_call pre _ 0 _) with (2 := Hq); [reflexivity|].
  intros k Hk.
  destruct (anchored re_call (0 + k) _) as [res|] eqn:E; [|reflexivity].
  exfalso. apply (Hfirst k Hk).
  destruct (call_anchored_shape _ _ _ E)
    as (lib' & fn' & post' & Hs & Hl' & Hf' & _).
  rewrite skipn_app in Hs.
  replace (k - length pre) with 0 in Hs by lia. cbn [skipn] in Hs.
  destruct (callShape_before _ _ _ _ _ _ _ _ Hs (proj2 Hl') (proj2 Hf'))
    as [post'' Hp].
  exists lib', fn', post''. split; [|split; assumption].
  rewrite Ht, skipn_app.
  replace (k - length pre) with 0 by lia. cbn [skipn]. exact Hp.
Qed.

Lemma slice0_extend line c1 c2 :
  c1 <= c2 -> exists more, slice0 line c2 = slice0 line c1 ++ more.
Proof.
  intros Hle. unfold slice0. exists (skipn c1 (firstn c2 line)).
  rewrite <- (firstn_skipn c1 (firstn c2 line)) at 1.
  rewrite firstn_firstn. replace (Nat.min c1 c2) with c1 by lia.
  reflexivity.
Qed.

Lemma countChar_app c a b : countChar c (a ++ b) = countChar c a + countChar c b.
Proof. unfold countChar. rewrite filter_app, length_app. reflexivity. Qed.

End ContextShapes.

(** X11.  Member completion reads a library name and a prefix off a line
    exactly when the line ends with an identifier, a dot and a possibly
    empty run of word characters, the identifier reaching back to the
    start of the line or to a character outside identifiers; the pair is
    then that identifier and that run. *)
Theorem memberAccess_context (line lib prefix : jsstring) :
  memberAccess line = Some (lib, prefix) <->
  exists pre,
    line = pre ++ lib ++ lit "." ++ prefix /\
    wordBoundary pre /\ identifier lib /\ all isWord prefix.
Proof.
  split.
  - apply memberAccess_shape.
  - intros (pre & -> & Hb & Hl & Hp). apply memberAccess_at; assumption.
Qed.

(** X12.  Signature help is stable while the cursor moves right: once a
    call is found before the cursor, every later cursor position on the
    same line shows the same signature, and the active parameter never
    decreases. *)
Theorem signatureHelp_stable
  (reg : Registry) (line : jsstring) (c1 c2 : nat) (help1 : SignatureHelp) :
  provideSignatureHelp reg line c1 = Some help1 ->
  c1 <= c2 ->
  exists help2,
    provideSignatureHelp reg line c2 = Some help2 /\
    signatures help2 = signatures help1 /\
    (activeParameter help1 <= activeParameter help2)%Z.
Proof.
  intros H1 Hle. unfold provideSignatureHelp in *. cbv zeta in *.
  destruct (slice0_extend line c1 c2 Hle) as [more Hm]. rewrite Hm.
  destruct (callSite (slice0 line c1)) as [[lib fn]|] eqn:Ec; [|discriminate].
  rewrite (callSite_extend _ more _ _ Ec).
  destruct (JsMap.get lib reg) as [funcs|]; [|discriminate].
  destruct (find _ funcs) as [f|]; [|discriminate].
  inversion H1; subst help1; clear H1.
  eexists. split; [reflexivity|]. cbn [signatures activeParameter].
  split; [reflexivity|].
  rewrite !matchAll_comma, countChar_app. lia.
Qed.

Lemma signatureHelp_stable_witness :
  exists help2,
    provideSignatureHelp sampleRegistry (lit "mathlib.add(1, 2) + x") 19
    = Some help2 /\
    (0 <= activeParameter help2)%Z.
Proof.
  destruct (provideSignatureHelp sampleRegistry (lit "mathlib.add(1, 2) + x") 12)
    as [help1|] eqn:E1; [|vm_compute in E1; discriminate].
  destruct (signatureHelp_stable sampleRegistry (lit "mathlib.add(1, 2) + x")
              12 19 help1 E1 ltac:(lia)) as (help2 & E2 & _ & Hp).
  exists help2. split; [exact E2|].
  vm_compute in E1. injection E1 as E1'. subst help1.
  cbn [activeParameter] in Hp. exact Hp.
Defined.

(** ** What the providers can reach *)

Section Reach.

Lemma member_items_get reg reg' line character :
  (forall lib, identifier lib -> JsMap.get lib reg' = JsMap.get lib reg) ->
  provideMemberCompletionItems reg' line character
  = provideMemberCompletionItems reg line character.
Proof.
  intros Hget. unfold provideMemberCompletionItems.
  destruct (memberAccess line) as [[lib prefix]|] eqn:E; [|reflexivity].
  destruct (memberAccess_shape _ _ _ E) as (pre & _ & _ & Hl & _).
  rewrite (Hget lib Hl). reflexivity.
Qed.

Lemma signature_help_get reg reg' line character :
  (forall lib, identifier lib -> JsMap.get lib reg' = JsMap.get lib reg) ->
  provideSignatureHelp reg' line character
  = provideSignatureHelp reg line character.
Proof.
  intros Hget. unfold provideSignatureHelp. cbv zeta.
  destruct (callSite (slice0 line character)) as [[lib fn]|] eqn:E;
    [|reflexivity].
  destruct (callSite_some _ _ _ E) as (pre & post & _ & Hl & _).
  rewrite (Hget lib Hl). reflexivity.
Qed.

Lemma keys_set_in (k : jsstring) (v : list LibFunction) (reg : Registry) :
  In k (JsMap.keys (JsMap.set k v reg)).
Proof.
  apply get_keys. rewrite get_set_same. discriminate.
Qed.

End Reach.

Section ListingOrder.
Variable h : Host.
Variable dir : jsstring.

Lemma loadLoop_returned_readable files : forall reg,
  snd (loadLoop h dir files reg) = Returned ->
  forall f, In f files -> endsWith f mapExt = true ->
            readFileSync h (path_join h dir f) <> None.
Proof.
  induction files as [|file files IH]; intros reg Hret f Hin He;
    [destruct Hin|].
  rewrite loadLoop_cons in Hret.
  destruct Hin as [->|Hin].
  - rewrite He in Hret. cbn [negb] in Hret.
    destruct (readFileSync h (path_join h dir f)); [discriminate|].
    discriminate Hret.
  - destruct (endsWith file mapExt); cbn [negb] in Hret;
      [|exact (IH _ Hret f Hin He)].
    destruct (readFileSync h (path_join h dir file)) as [content|];
      [|discriminate Hret].
    destruct (funcSectionOf content) as [sec|];
      [|exact (IH _ Hret f Hin He)].
    destruct (truthy sec); cbn [negb] in Hret; exact (IH _ Hret f Hin He).
Qed.

Lemma loadLoop_get_listing files files' lib :
  (forall f, In f files -> In f files') ->
  snd (loadLoop h dir files []) = Returned ->
  snd (loadLoop h dir files' []) = Returned ->
  forall funcs,
    JsMap.get lib (fst (loadLoop h dir files [])) = Some funcs ->
    JsMap.get lib (fst (loadLoop h dir files' [])) = Some funcs.
Proof.
  intros Hsub Hret Hret' funcs Hget.
  destruct (loadLoop_key_origin h dir files [] lib) as [Hnil|(f & fs & Hin & Hr)].
  { rewrite Hget. discriminate. }
  { exfalso. apply Hnil. reflexivity. }
  pose proof (loadLoop_installs h dir files [] f lib fs Hret Hin Hr) as Hfs.
  rewrite Hget in Hfs. injection Hfs as ->.
  apply (loadLoop_installs h dir files' [] f lib fs Hret' (Hsub f Hin) Hr).
Qed.

Lemma loadLoop_listing files files' :
  (forall f, In f files <-> In f files') ->
  snd (loadLoop h dir files []) = Returned ->
  snd (loadLoop h dir files' []) = Returned /\
  forall lib,
    JsMap.get lib (fst (loadLoop h dir files' []))
    = JsMap.get lib (fst (loadLoop h dir files [])).
Proof.
  intros Hsame Hret.
  assert (Hret' : snd (loadLoop h dir files' []) = Returned).
  { apply loadLoop_readable. intros f Hin He.
    apply (loadLoop_returned_readable files [] Hret f);
      [apply Hsame; exact Hin | exact He]. }
  split; [exact Hret'|]. intros lib.
  destruct (JsMap.get lib (fst (loadLoop h dir files []))) as [funcs|] eqn:E.
  - apply (loadLoop_get_listing files files' lib); try assumption.
    intros f; apply Hsame.
  - destruct (JsMap.get lib (fst (loadLoop h dir files' []))) as [funcs'|] eqn:E';
      [|reflexivity].
    assert (Hsub : forall f, In f files' -> In f files)
      by (intros f; apply Hsame).
    pose proof (loadLoop_get_listing files' files lib Hsub Hret' Hret
                  funcs' E') as E2.
    congruence.
Qed.

End ListingOrder.

(** X13.  How a reload ends does not depend on the order in which the
    directory is listed, and when it returns neither does what it
    records: two hosts that list the same entries and hold the same
    descriptors end the same way, and if the reload returns they give
    every library the same records, so member completion and signature
    help answer alike.  Nothing is said of the registry that a reload
    leaves when it throws. *)
Theorem reload_order_irrelevant
  (h h' : Host) (dir : jsstring) (files files' : list jsstring) :
  descriptorDir h dir files ->
  descriptorDir h' dir files' ->
  (forall f, In f files <-> In f files') ->
  (forall f, In f files -> endsWith f mapExt = true ->
     readFileSync h (path_join h dir f)
     = readFileSync h' (path_join h' dir f)) ->
  snd (loadMapFiles h' []) = snd (loadMapFiles h []) /\
  (snd (loadMapFiles h []) = Returned ->
   (forall lib,
      JsMap.get lib (fst (loadMapFiles h' []))
      = JsMap.get lib (fst (loadMapFiles h []))) /\
   (forall line character,
      provideMemberCompletionItems (fst (loadMapFiles h' [])) line character
      = provideMemberCompletionItems (fst (loadMapFiles h [])) line character /\
      provideSignatureHelp (fst (loadMapFiles h' [])) line character
      = provideSignatureHelp (fst (loadMapFiles h [])) line character)).
Proof.
  intros Hd Hd' Hsame Hread.
  rewrite (loadMapFiles_dir h dir files [] Hd),
          (loadMapFiles_dir h' dir files' [] Hd').
  rewrite <- (loadLoop_same h h' dir files' []).
  2:{ intros f Hin He. apply Hread; [apply Hsame; exact Hin | exact He]. }
  assert (Hback : forall f, In f files' <-> In f files)
    by (intros f; symmetry; apply Hsame).
  split.
  - destruct (snd (loadLoop h dir files [])) eqn:E.
    + exact (proj1 (loadLoop_listing h dir files files' Hsame E)).
    + destruct (snd (loadLoop h dir files' [])) eqn:E'; [|reflexivity].
      pose proof (proj1 (loadLoop_listing h dir files' files Hback E')) as E2.
      congruence.
  - intros Hret.
    destruct (loadLoop_listing h dir files files' Hsame Hret) as [_ Hget].
    split; [exact Hget|].
    intros line character. split.
    + apply member_items_get. intros lib _. apply Hget.
    + apply signature_help_get. intros lib _. apply Hget.
Qed.

Lemma reload_order_irrelevant_witness :
  snd (loadMapFiles reversedHost []) = Returned /\
  JsMap.get (lit "mathlib") (fst (loadMapFiles reversedHost []))
  = JsMap.get (lit "mathlib") (fst (loadMapFiles twoLibHost [])).
Proof.
  assert (Hd : descriptorDir twoLibHost projDir
                 [lit "strlib.map"; lit "README.md"; lit "mathlib.map"]).
  { split; [reflexivity|]. split; [discriminate|].
    split; reflexivity. }
  assert (Hd' : descriptorDir reversedHost projDir
                  [lit "mathlib.map"; lit "README.md"; lit "strlib.map"]).
  { split; [reflexivity|]. split; [discriminate|].
    split; reflexivity. }
  assert (Hsame : forall f,
            In f [lit "strlib.map"; lit "README.md"; lit "mathlib.map"] <->
            In f [lit "mathlib.map"; lit "README.md"; lit "strlib.map"]).
  { intros f. simpl. tauto. }
  assert (Hret : snd (loadMapFiles twoLibHost []) = Returned)
    by (vm_compute; reflexivity).
  destruct (reload_order_irrelevant twoLibHost reversedHost projDir _ _
              Hd Hd' Hsame) as (Hend & Hrec).
  - intros f _ _. reflexivity.
  - split; [rewrite Hend; exact Hret | apply (Hrec Hret)].
Defined.

(** X14.  Member completion and signature help look libraries up by
    identifier only.  A library stored under a name that is not an
    identifier, as a descriptor file with a dash or a dot in its name
    gives, is offered after [using] but has no effect on what the two
    other providers answer. *)
Theorem library_name_reach
  (reg : Registry) (lib : jsstring) (funcs : list LibFunction)
  (line : jsstring) (character : nat) :
  ~ identifier lib ->
  provideMemberCompletionItems (JsMap.set lib funcs reg) line character
  = provideMemberCompletionItems reg line character /\
  provideSignatureHelp (JsMap.set lib funcs reg) line character
  = provideSignatureHelp reg line character /\
  (usingShape line ->
   In (libraryItem lib)
      (provideLibraryCompletionItems (JsMap.set lib funcs reg)
         line character)).
Proof.
  intros Hlib.
  assert (Hget : forall l, identifier l ->
            JsMap.get l (JsMap.set lib funcs reg) = JsMap.get l reg).
  { intros l Hl. apply get_set_other. intros ->. exact (Hlib Hl). }
  split; [exact (member_items_get _ _ _ _ Hget)|].
  split; [exact (signature_help_get _ _ _ _ Hget)|].
  intros Hu. unfold provideLibraryCompletionItems.
  apply using_test in Hu. rewrite Hu.
  apply in_map. apply keys_set_in.
Qed.

Lemma library_name_reach_witness :
  fst (loadMapFiles dashedHost [])
  = JsMap.set (lit "my-lib") (parseSection
      (match funcSectionOf mathlibText with Some s => s | None => [] end)) [] /\
  provideMemberCompletionItems (fst (loadMapFiles dashedHost []))
    (lit "my-lib.") 7 = [] /\
  provideSignatureHelp (fst (loadMapFiles dashedHost []))
    (lit "my-lib.add(") 11 = None.
Proof.
  assert (Hreg : fst (loadMapFiles dashedHost [])
    = JsMap.set (lit "my-lib") (parseSection
        (match funcSectionOf mathlibText with Some s => s | None => [] end)) []).
  { vm_compute. reflexivity. }
  assert (Hn : ~ identifier (lit "my-lib")).
  { intros [_ Hall]. unfold all in Hall. rewrite Forall_forall in Hall.
    specialize (Hall (ch "-")). vm_compute in Hall.
    assert (Hf : false = true) by (apply Hall; auto 10).
    discriminate. }
  split; [exact Hreg|]. rewrite Hreg.
  pose proof (library_name_reach [] (lit "my-lib")
    (parseSection
       (match funcSectionOf mathlibText with Some s => s | None => [] end))
    (lit "my-lib.") 7 Hn) as [Hm _].
  pose proof (library_name_reach [] (lit "my-lib")
    (parseSection
       (match funcSectionOf mathlibText with Some s => s | None => [] end))
    (lit "my-lib.add(") 11 Hn) as (_ & Hs & _).
  split.
  - rewrite Hm. apply providers_empty.
  - rewrite Hs. apply providers_empty.
Defined.

(** ** Activation that fails *)

(** X15.  When an entry of the listing that ends in [.map] cannot be
    read at activation, [activate] is left by the exception before the
    watcher is installed and before any provider is registered; no later
    event reaches the extension, so repairing the file does not bring the
    libraries back. *)
Theorem activate_read_failure
  (h : Host) (dir : jsstring) (files : list jsstring) (file : jsstring)
  (evs : list event) :
  descriptorDir h dir files ->
  In file files ->
  endsWith file mapExt = true ->
  readFileSync h (path_join h dir file) = None ->
  snd (activate h) = Threw /\
  registered (fst (activate h)) = false /\
  watched (fst (activate h)) = None /\
  run (fst (activate h)) evs = fst (activate h).
Proof.
  intros Hd Hin He Hr.
  assert (Hthrew : snd (loadMapFiles h []) = Threw).
  { rewrite (loadMapFiles_dir h dir files [] Hd).
    destruct (snd (loadLoop h dir files [])) eqn:E; [exfalso|reflexivity].
    exact (loadLoop_returned_readable h dir files [] E file Hin He Hr). }
  unfold activate. destruct (loadMapFiles h []) as [reg o].
  cbn [snd] in Hthrew. subst o. cbn [fst snd registered watched].
  split; [reflexivity|]. split; [reflexivity|]. split; [reflexivity|].
  apply run_unwatched. reflexivity.
Qed.

Lemma activate_read_failure_witness :
  snd (activate brokenHost) = Threw /\
  run (fst (activate brokenHost)) [(sampleHost, Some (lit "strlib.map"))]
  = fst (activate brokenHost).
Proof.
  destruct (activate_read_failure brokenHost projDir
              [lit "mathlib.map"; lit "bad.map"; lit "strlib.map"]
              (lit "bad.map") [(sampleHost, Some (lit "strlib.map"))])
    as (Ht & _ & _ & Hrun).
  - split; [reflexivity|]. split; [discriminate|]. split; reflexivity.
  - simpl. auto.
  - vm_compute. reflexivity.
  - vm_compute. reflexivity.
  - split; [exact Ht | exact Hrun].
Defined.
